(** * hack-btc/script.cc: derivation-path search for a legacy Bitcoin address

    A shallow embedding of [script.cc]: the Base58 codec, the BIP32-style
    [HDKey] class, the path search [check_seed_phrase] and [main], followed
    by the properties established about them.

    Conventions.
    - [uint8_t], [uint16_t], [uint32_t] values are integers in [Z]; every
      narrowing store is written out as a [mod].
    - [std::vector<uint8_t>] and [std::array<uint8_t, 25>] are [list Z];
      [std::string] is [string] (which may hold the NUL character).
    - A thrown [std::runtime_error] is the [Throw] case of [result].
    - OpenSSL and libsecp256k1 are not part of the program: they are the
      fields of the classes [Digests] and [Secp256k1], together with the
      part of their documented contracts that the program relies on. *)

From Stdlib Require Import ZArith String Ascii Lia.
From stdpp Require Import base tactics option list.

Local Open Scope Z_scope.

(** ** Exceptions *)

(** Every exception of the program is a [std::runtime_error] carrying a
    message, and nothing catches one. A failing [assert] (the build does
    not define [NDEBUG]) ends the process as well; [assertion] records the
    asserted expression. *)
Inductive exn : Type :=
| runtime_error (what : string)
| assertion (expr : string).

Inductive result (A : Type) : Type :=
| Ok (a : A)
| Throw (e : exn).
Arguments Ok {A} a.
Arguments Throw {A} e.

Definition InvalidMasterKey : exn :=
  runtime_error "Invalid private key generated from seed".
Definition PubkeyCreateFailed : exn :=
  runtime_error "Failed to create public key".
Definition InvalidChildKey : exn :=
  runtime_error "Invalid child key - retry with next index".
Definition InvalidBase58Character : exn :=
  runtime_error "Invalid base58 character".
Definition InvalidLength : exn :=
  runtime_error "Invalid address length after decode".

#[global] Instance result_ret : MRet result := fun _ a => Ok a.
#[global] Instance result_bind : MBind result := fun _ _ f m =>
  match m with
  | Ok a => f a
  | Throw e => Throw e
  end.

Definition is_ok {A} (r : result A) : bool :=
  match r with Ok _ => true | Throw _ => false end.

(** ** Base58 *)

Module Base58.

Definition BASE58_CHARS : string :=
  "123456789ABCDEFGHJKLMNPQRSTUVWXYZabcdefghijkmnopqrstuvwxyz".

(** [BASE58_CHARS[i]]: the array behind a string literal ends with the
    terminating NUL, which is what an index equal to the length reads. *)
Definition char_at (s : string) (i : Z) : ascii :=
  match String.get (Z.to_nat i) s with
  | Some c => c
  | None => Ascii.zero
  end.

(** [strchr(s, c) - s]. As in C, the terminating NUL counts as part of the
    string: looking for the NUL character finds the terminator. *)
Fixpoint strchr_from (off : Z) (s : string) (c : ascii) : option Z :=
  match s with
  | EmptyString => if Ascii.eqb c Ascii.zero then Some off else None
  | String a s' => if Ascii.eqb a c then Some off else strchr_from (off + 1) s' c
  end.

Definition strchr (s : string) (c : ascii) : option Z := strchr_from 0 s c.

(** *** encode_base58 *)

(** [while (zeros < input.size() && input[zeros] == 0) zeros++;] *)
Fixpoint count_zeros (input : list Z) : nat :=
  match input with
  | 0 :: rest => S (count_zeros rest)
  | _ => O
  end.

(** The loop over [j]: [carry += (uint16_t)b[j] << 8; b[j] = carry % 58;
    carry /= 58;] with [carry] a [uint16_t] and [b[j]] a [uint8_t]. Returns
    the updated digits and the carry that leaves the loop. *)
Fixpoint enc_mul (b : list Z) (carry : Z) : list Z * Z :=
  match b with
  | [] => ([], carry)
  | bj :: rest =>
      let carry1 := (carry + Z.shiftl bj 8) mod 2 ^ 16 in
      let '(rest', carry') := enc_mul rest (carry1 / 58) in
      ((carry1 mod 58) mod 2 ^ 8 :: rest', carry')
  end.

(** [while (carry > 0) { b.push_back(carry % 58); carry /= 58; }] *)
Fixpoint enc_push (fuel : nat) (b : list Z) (carry : Z) : list Z :=
  match fuel with
  | O => b
  | S fuel' =>
      if 0 <? carry
      then enc_push fuel' (b ++ [(carry mod 58) mod 2 ^ 8]) (carry / 58)
      else b
  end.

(** One round of the loop over [i]; [carry] starts as [input[i]]. The
    [while] loop divides a positive [carry] by 58 each round, so [carry]
    rounds are always enough. *)
Definition enc_byte (b : list Z) (byte : Z) : list Z :=
  let '(b', carry) := enc_mul b byte in
  enc_push (Z.to_nat carry) b' carry.

Definition enc_digits (input : list Z) : list Z :=
  fold_left enc_byte input [].

Definition encode_base58_chars (input : list Z) : list ascii :=
  let zeros := count_zeros input in
  let b := enc_digits (drop zeros input) in
  replicate zeros "1"%char ++ (char_at BASE58_CHARS <$> reverse b).

Definition encode_base58 (input : list Z) : string :=
  string_of_list_ascii (encode_base58_chars input).

(** *** decode_base58 *)

(** The loop over [i]: [uint32_t carry = (uint32_t)bn[i] * 58 + digit;
    bn[i] = carry & 0xff; digit = carry >> 8;] with [bn[i]] and [digit]
    of type [uint16_t]. *)
Fixpoint dec_mul (bn : list Z) (digit : Z) : list Z * Z :=
  match bn with
  | [] => ([], digit)
  | x :: rest =>
      let carry := (x * 58 + digit) mod 2 ^ 32 in
      let '(rest', digit') := dec_mul rest (Z.shiftr carry 8 mod 2 ^ 16) in
      (Z.land carry 255 mod 2 ^ 16 :: rest', digit')
  end.

(** The body of [for (char c : input)]. *)
Definition dec_char (bn : list Z) (c : ascii) : result (list Z) :=
  match strchr BASE58_CHARS c with
  | None => Throw InvalidBase58Character
  | Some off =>
      let '(bn', digit) := dec_mul bn (off mod 2 ^ 16) in
      Ok (if 0 <? digit then bn' ++ [digit] else bn')
  end.

Fixpoint dec_digits (bn : list Z) (input : list ascii) : result (list Z) :=
  match input with
  | [] => Ok bn
  | c :: rest => bn' ← dec_char bn c; dec_digits bn' rest
  end.

(** [for (i = 0; i < input.length() && input[i] == '1' && pos < result.size(); i++)
      result[pos++] = 0;] *)
Fixpoint put_zeros (input : list ascii) (res : list Z) (pos : nat)
  : list Z * nat :=
  match input with
  | c :: rest =>
      if Ascii.eqb c "1" && (pos <? length res)%nat
      then put_zeros rest (<[pos := 0]> res) (S pos)
      else (res, pos)
  | [] => (res, pos)
  end.

(** [for (it = bn.rbegin(); it != bn.rend() && pos < result.size(); ++it)
      result[pos++] = *it;] ([*it] is narrowed to [uint8_t]). *)
Fixpoint put_bytes (rbn : list Z) (res : list Z) (pos : nat)
  : list Z * nat :=
  match rbn with
  | x :: rest =>
      if (pos <? length res)%nat
      then put_bytes rest (<[pos := x mod 2 ^ 8]> res) (S pos)
      else (res, pos)
  | [] => (res, pos)
  end.

Definition decode_base58 (input : string) : result (list Z) :=
  let res := replicate 25 0 in
  bn ← dec_digits [] (list_ascii_of_string input);
  let '(res, pos) := put_zeros (list_ascii_of_string input) res 0%nat in
  let '(res, pos) := put_bytes (reverse bn) res pos in
  if bool_decide (pos ≠ length res) then Throw InvalidLength else Ok res.

End Base58.

Import Base58.

(** ** The cryptographic libraries *)

(** Big-endian value of a byte string, as libsecp256k1 reads a 32-byte
    scalar. *)
Definition be_val (bytes : list Z) : Z :=
  fold_left (fun acc x => acc * 256 + x) bytes 0.

(** The order of the secp256k1 group. *)
Definition curve_order : Z :=
  0xFFFFFFFFFFFFFFFFFFFFFFFFFFFFFFFEBAAEDCE6AF48A03BBFD25E8CD0364141.

(** OpenSSL: the digests and the key stretching, with the lengths of
    their outputs. *)
Class Digests : Type := {
  (** [HMAC_Init_ex(key, EVP_sha512); HMAC_Update(data); HMAC_Final] *)
  HMAC_SHA512 : list Z -> list Z -> list Z;
  (** [SHA256_Init; SHA256_Update; SHA256_Final] *)
  SHA256 : list Z -> list Z;
  (** [RIPEMD160_Init; RIPEMD160_Update; RIPEMD160_Final] *)
  RIPEMD160 : list Z -> list Z;
  (** [PKCS5_PBKDF2_HMAC(pass, salt, iter, EVP_sha512(), keylen)] *)
  PKCS5_PBKDF2_HMAC_SHA512 : string -> string -> Z -> nat -> list Z;
  HMAC_SHA512_length : forall key data,
    length (HMAC_SHA512 key data) = 64%nat;
  SHA256_length : forall input, length (SHA256 input) = 32%nat;
  RIPEMD160_length : forall input, length (RIPEMD160 input) = 20%nat;
}.

(** libsecp256k1, as documented in [secp256k1.h]. A function that reports
    failure by returning 0 returns [None] (or [false]) here; a function
    that writes its result through a pointer returns it. *)
Class Secp256k1 : Type := {
  secp256k1_pubkey : Type;
  secp256k1_ec_seckey_verify : list Z -> bool;
  secp256k1_ec_pubkey_create : list Z -> option secp256k1_pubkey;
  (** with the flag [SECP256K1_EC_COMPRESSED] *)
  secp256k1_ec_pubkey_serialize : secp256k1_pubkey -> list Z;
  secp256k1_ec_seckey_tweak_add : list Z -> list Z -> option (list Z);
  (** A secret key is valid when it is not zero and below the order. *)
  seckey_verify_spec : forall seckey,
    secp256k1_ec_seckey_verify seckey = true <->
    0 < be_val seckey < curve_order;
  (** "Returns: 1: secret was valid, public key stores. 0: secret was
      invalid, try again." *)
  pubkey_create_spec : forall seckey,
    secp256k1_ec_pubkey_create seckey = None <->
    secp256k1_ec_seckey_verify seckey = false;
  (** A compressed public key takes 33 bytes. *)
  pubkey_serialize_length : forall pubkey,
    length (secp256k1_ec_pubkey_serialize pubkey) = 33%nat;
  (** "Returns: 0 if the arguments are invalid or the resulting secret
      key would be invalid (only when the tweak is the negation of the
      secret key). 1 otherwise." *)
  seckey_tweak_add_None : forall seckey tweak,
    secp256k1_ec_seckey_tweak_add seckey tweak = None <->
    (secp256k1_ec_seckey_verify seckey = false \/
     curve_order <= be_val tweak \/
     (be_val seckey + be_val tweak) mod curve_order = 0);
  seckey_tweak_add_Some : forall seckey tweak seckey',
    secp256k1_ec_seckey_tweak_add seckey tweak = Some seckey' ->
    secp256k1_ec_seckey_verify seckey' = true /\
    be_val seckey' = (be_val seckey + be_val tweak) mod curve_order;
}.

(** ** The program *)

Section Program.

Context {digests : Digests} {secp : Secp256k1}.

(** *** Hash helper functions *)

Definition hmac_sha512 (key data : list Z) : list Z := HMAC_SHA512 key data.

Definition sha256 (input : list Z) : list Z := SHA256 input.

Definition hash160 (input : list Z) : list Z :=
  let sha := sha256 input in
  RIPEMD160 sha.

(** [std::copy(src.begin(), src.end(), dst.begin() + pos)] *)
Definition copy_to (src dst : list Z) (pos : nat) : list Z :=
  list_inserts pos src dst.

(** *** class HDKey *)

Record HDKey : Type := mkHDKey {
  private_key : list Z;
  chain_code : list Z;
  public_key : list Z;
}.

(** The constructor [HDKey(private_key_, chain_code_)]. The serialised
    public key is what the library wrote, [pubkey_len] bytes of it. *)
Definition HDKey_new (private_key_ chain_code_ : list Z) : result HDKey :=
  match secp256k1_ec_pubkey_create private_key_ with
  | None => Throw PubkeyCreateFailed
  | Some pubkey =>
      let public_key_ := secp256k1_ec_pubkey_serialize pubkey in
      let pubkey_len := length public_key_ in
      if bool_decide (pubkey_len = 33%nat)
      then Ok (mkHDKey private_key_ chain_code_ public_key_)
      else Throw (assertion "pubkey_len == 33")
  end.

Definition bytes_of_string (s : string) : list Z :=
  (fun c => Z.of_nat (nat_of_ascii c)) <$> list_ascii_of_string s.

Definition from_seed (seed : list Z) : result HDKey :=
  let hmac := hmac_sha512 (bytes_of_string "Bitcoin seed") seed in
  let private_key_ := take 32 hmac in
  let chain_code_ := drop 32 hmac in
  if negb (secp256k1_ec_seckey_verify private_key_)
  then Throw InvalidMasterKey
  else HDKey_new private_key_ chain_code_.

Definition derive_child (self : HDKey) (index : Z) : result HDKey :=
  let data :=
    if 0x80000000 <=? index
    then [0] ++ private_key self
    else public_key self in
  let data :=
    data ++ [Z.land (Z.shiftr index 24) 0xFF;
             Z.land (Z.shiftr index 16) 0xFF;
             Z.land (Z.shiftr index 8) 0xFF;
             Z.land index 0xFF] in
  let I := hmac_sha512 (chain_code self) data in
  let I_L := take 32 I in
  let I_R := drop 32 I in
  match secp256k1_ec_seckey_tweak_add (private_key self) I_L with
  | None => Throw InvalidChildKey
  | Some child_private_key =>
      child_key ← HDKey_new child_private_key (replicate 32 0);
      Ok (mkHDKey (private_key child_key) I_R (public_key child_key))
  end.

(** ([with_version] is built and never read; it is left out.) *)
Definition get_address (self : HDKey) : list Z :=
  let h160 := hash160 (public_key self) in
  let result := replicate 25 0 in
  let result := <[0%nat := 0x00]> result in
  let result := copy_to h160 result 1 in
  let checksum := sha256 (sha256 (take 21 result)) in
  copy_to (take 4 checksum) result 21.

Definition seed_from_phrase (mnemonic : string) : list Z :=
  PKCS5_PBKDF2_HMAC_SHA512 mnemonic "mnemonic" 2048 64.

(** *** Output and the search trace *)

(** What is inserted into a stream: a string, a [uint32_t] (printed in
    decimal) or [std::endl]. *)
Inductive token : Type :=
| Str (s : string)
| Num (n : Z)
| Endl.

(** A candidate of the search: the purpose and coin type of its family,
    the account [i] (none for the legacy family), the change [j] and the
    address index [k]. *)
Record candidate : Type := mkCandidate {
  cand_path : list Z;
  cand_account : option Z;
  cand_change : Z;
  cand_index : Z;
}.

(** [SeedDerived] and [Examined] are not output of the program: they mark
    the call of [seed_from_phrase] and each comparison of a derived
    address with the target, so that properties can speak about them. *)
Inductive event : Type :=
| Cout (t : token)
| Cerr (t : token)
| SeedDerived
| Examined (c : candidate).

(** A computation that appends to the trace and may throw. *)
Definition M (A : Type) : Type := list event * result A.

#[global] Instance M_ret : MRet M := fun _ a => ([], Ok a).
#[global] Instance M_bind : MBind M := fun _ _ f m =>
  match m with
  | (log, Ok a) => let '(log', r) := f a in (log ++ log', r)
  | (log, Throw e) => (log, Throw e)
  end.

Definition tell (evs : list event) : M unit := (evs, Ok tt).
Definition lift {A} (r : result A) : M A := ([], r).

(** [for (uint32_t i = lo; i < lo + n; ++i) body] where the body may
    [return] from the enclosing function ([Some]) or fall through to the
    next round ([None]). *)
Fixpoint for_range {R} (n : nat) (i : Z) (body : Z -> M (option R))
  : M (option R) :=
  match n with
  | O => mret None
  | S n' =>
      r ← body i;
      match r with
      | Some x => mret (Some x)
      | None => for_range n' (i + 1) body
      end
  end.

(** [for (auto const& x : xs) body] *)
Fixpoint for_each {A R} (xs : list A) (body : A -> M (option R))
  : M (option R) :=
  match xs with
  | [] => mret None
  | x :: xs' =>
      r ← body x;
      match r with
      | Some y => mret (Some y)
      | None => for_each xs' body
      end
  end.

(** [for (uint32_t index : path) key = key.derive_child(index);] *)
Fixpoint derive_path (key : HDKey) (path : list Z) : result HDKey :=
  match path with
  | [] => Ok key
  | index :: path' => key' ← derive_child key index; derive_path key' path'
  end.

(** [for (auto path_part : path) std::cout << "/" << path_part;] *)
Definition print_path (path : list Z) : list event :=
  path ≫= (fun path_part => [Cout (Str "/"); Cout (Num path_part)]).

(** *** check_seed_phrase *)

Definition paths : list (list Z) :=
  [ [Z.lor 44 0x80000000; Z.lor 0 0x80000000];
    [Z.lor 49 0x80000000; Z.lor 0 0x80000000];
    [Z.lor 84 0x80000000; Z.lor 0 0x80000000];
    [] ].

(** The branch under [if (false)], which only prints, is never run and
    is left out. *)
Definition check_seed_phrase (mnemonic : string) (target_address : list Z)
  : M bool :=
  _ ← tell [SeedDerived];
  let seed := seed_from_phrase mnemonic in
  master_key ← lift (from_seed seed);
  r ← for_each paths (fun path =>
    key ← lift (derive_path master_key path);
    let is_legacy := bool_decide (length path = 0%nat) in
    for_range (if is_legacy then 1 else 20) 0 (fun i =>
      for_range 2 0 (fun j =>
        for_range 20 0 (fun k =>
          address_key ← lift (
            k1 ← (if is_legacy then Ok key
                  else derive_child key (Z.lor 0x80000000 i));
            k2 ← derive_child k1 j;
            derive_child k2 k);
          _ ← tell [Examined (mkCandidate path
                       (if is_legacy then None else Some i) j k)];
          if bool_decide (get_address address_key = target_address)
          then
            _ ← tell ([Cout (Str mnemonic)] ++ print_path path
                      ++ (if negb is_legacy
                          then [Cout (Str "/"); Cout (Num i)] else [])
                      ++ [Cout (Str "/"); Cout (Num j);
                          Cout (Str "/"); Cout (Num k); Cout Endl]);
            mret (Some true)
          else mret None))));
  match r with
  | Some found => mret found
  | None => mret false
  end.

(** *** main *)

(** How the process ends: [return code] from [main], or an abort caused by
    an uncaught exception or a failed assertion. *)
Inductive exit : Type :=
| Exit (code : Z)
| Aborted (e : exn).

Definition mnemonic_literal : string :=
  "rescue account rookie remember dose ice donor organ head eyebrow obvious seven".

Definition target_literal : string := "1Lme4nrYHRChHwrpVHJTajEXGQjZv72GyS".

(** The body of [main] for a given mnemonic and target string.
    [ctx_created] tells whether [secp256k1_context_create] returned a
    context. ([secp256k1_context_destroy] has no effect on the outcome.) *)
Definition run (ctx_created : bool) (mnemonic target : string)
  : list event * exit :=
  if negb ctx_created
  then ([Cerr (Str "Failed to create secp256k1 context"); Cerr Endl], Exit 1)
  else
    match decode_base58 target with
    | Throw e => ([], Aborted e)
    | Ok target_bytes =>
        if bool_decide (target_bytes !! 0%nat = Some 0)
        then
          match check_seed_phrase mnemonic target_bytes with
          | (log, Ok found) => (log, Exit (if found then 0 else 1))
          | (log, Throw e) => (log, Aborted e)
          end
        else ([], Aborted (assertion "target_bytes[0] == 0"))
    end.

Definition main (ctx_created : bool) : list event * exit :=
  run ctx_created mnemonic_literal target_literal.

End Program.

(** ** Notions used in the statements *)

(** Value of a little-endian digit string in a base. *)
Fixpoint le_val (base : Z) (ds : list Z) : Z :=
  match ds with
  | [] => 0
  | d :: ds' => d + base * le_val base ds'
  end.

Definition digits_in (base : Z) (ds : list Z) : Prop :=
  Forall (fun d => 0 <= d < base) ds.

(** A little-endian digit string without a most significant zero. *)
Definition canonical (base : Z) (ds : list Z) : Prop :=
  digits_in base ds /\ last ds <> Some 0.

Definition is_bytes (bs : list Z) : Prop := digits_in 256 bs.

(** Number of '1' characters at the start of a string. *)
Fixpoint leading_ones (s : list ascii) : nat :=
  match s with
  | c :: s' => if Ascii.eqb c "1" then S (leading_ones s') else O
  | [] => O
  end.

(** Horner evaluation of a most-significant-first digit string. *)
Definition horner (base : Z) (acc : Z) (ds : list Z) : Z :=
  fold_left (fun acc x => acc * base + x) ds acc.

(** The alphabet maps digit [d] to a character that [strchr] maps back to
    [d], and only digit 0 to the character '1'. *)
Definition alphabet_check (d : Z) : bool :=
  bool_decide (strchr BASE58_CHARS (char_at BASE58_CHARS d) = Some d)
  && (bool_decide (d = 0) || negb (Ascii.eqb (char_at BASE58_CHARS d) "1")).

(** Little-endian and big-endian encodings of [v] on [len] bytes. *)
Fixpoint le_bytes (len : nat) (v : Z) : list Z :=
  match len with
  | O => []
  | S len' => v mod 256 :: le_bytes len' (v / 256)
  end.

Definition be_bytes (len : nat) (v : Z) : list Z := reverse (le_bytes len v).

(** *** The candidate space of the search, as the specification lists it *)

Definition hardened (i : Z) : Z := i + 2 ^ 31.

(** A family with accounts: account 0..19 (hardened), change 0..1,
    address index 0..19, in this order. *)
Definition family (purpose : Z) : list candidate :=
  a ← seqZ 0 20; c ← seqZ 0 2; i ← seqZ 0 20;
  [mkCandidate [hardened purpose; hardened 0] (Some a) c i].

(** The legacy family: change 0..1 and address index 0..19 directly under
    the master node. *)
Definition legacy_family : list candidate :=
  c ← seqZ 0 2; i ← seqZ 0 20; [mkCandidate [] None c i].

Definition candidates : list candidate :=
  family 44 ++ family 49 ++ family 84 ++ legacy_family.

(** The derivation path of a candidate, from the master node. *)
Definition derivation (c : candidate) : list Z :=
  cand_path c
  ++ match cand_account c with Some a => [hardened a] | None => [] end
  ++ [cand_change c; cand_index c].

(** What the program prints for a matching candidate. *)
Definition report (mnemonic : string) (c : candidate) : list event :=
  Cout <$> ([Str mnemonic]
    ++ (cand_path c ≫= fun p => [Str "/"; Num p])
    ++ match cand_account c with Some a => [Str "/"; Num a] | None => [] end
    ++ [Str "/"; Num (cand_change c); Str "/"; Num (cand_index c); Endl]).

(** The candidates compared in a trace. *)
Definition examined (log : list event) : list candidate :=
  log ≫= fun ev => match ev with Examined c => [c] | _ => [] end.

Section Search.

Context {digests : Digests} {secp : Secp256k1}.

(** The address a candidate leads to under a master node. *)
Definition address_of (master : HDKey) (c : candidate) : result (list Z) :=
  key ← derive_path master (derivation c); Ok (get_address key).

Definition matches (master : HDKey) (target : list Z) (c : candidate) : bool :=
  match address_of master c with
  | Ok a => bool_decide (a = target)
  | Throw _ => false
  end.

(** Linear search over a list of candidates: each one is derived from
    the master node and compared; the first match is reported and ends the
    search, and so does a derivation that throws. *)
Fixpoint search (mnemonic : string) (master : HDKey) (target : list Z)
    (cs : list candidate) : M (option bool) :=
  match cs with
  | [] => ([], Ok None)
  | c :: cs' =>
      match address_of master c with
      | Throw e => ([], Throw e)
      | Ok a =>
          if bool_decide (a = target)
          then (Examined c :: report mnemonic c, Ok (Some true))
          else let '(log, r) := search mnemonic master target cs' in
               (Examined c :: log, r)
      end
  end.

(** The candidates that the three inner loops of [check_seed_phrase] go
    through for one entry of [paths]. *)
Definition family_of (path : list Z) : list candidate :=
  let is_legacy := bool_decide (length path = 0%nat) in
  seqZ 0 (Z.of_nat (if is_legacy then 1 else 20)) ≫= fun i =>
  seqZ 0 (Z.of_nat 2) ≫= fun j =>
  mkCandidate path (if is_legacy then None else Some i) j
    <$> seqZ 0 (Z.of_nat 20).

(** The body of the innermost loop, as a function of the candidate and
    of the node [key] of its family. *)
Definition examine (mnemonic : string) (target : list Z) (key : HDKey)
    (c : candidate) : M (option bool) :=
  address_key ← lift (
    k1 ← match cand_account c with
         | None => Ok key
         | Some i => derive_child key (Z.lor 0x80000000 i)
         end;
    k2 ← derive_child k1 (cand_change c);
    derive_child k2 (cand_index c));
  _ ← tell [Examined c];
  if bool_decide (get_address address_key = target)
  then _ ← tell (report mnemonic c); mret (Some true)
  else mret None.

(** Membership of a candidate in the family of [path]; its account, if
    any, is one whose hardened index the program computes with [|]. *)
Definition in_family (path : list Z) (c : candidate) : Prop :=
  cand_path c = path /\
  match cand_account c with
  | Some i => Z.lor 0x80000000 i = hardened i
  | None => True
  end.

(** The value [check_seed_phrase] returns after its loops. *)
Definition found (r : result (option bool)) : result bool :=
  match r with
  | Ok (Some b) => Ok b
  | Ok None => Ok false
  | Throw e => Throw e
  end.

(** What a loop does after a round that did not throw: leave with the
    value returned, or go on. *)
Definition and_then {R} (r : option R) (rest : M (option R)) : M (option R) :=
  match r with
  | Some x => mret (Some x)
  | None => rest
  end.

(** The nodes the program can build: what the constructor returns, the
    master node of a seed, and the children of such nodes. *)
Inductive constructed : HDKey -> Prop :=
| constructed_new private_key_ chain_code_ key :
    HDKey_new private_key_ chain_code_ = Ok key -> constructed key
| constructed_master seed key :
    from_seed seed = Ok key -> constructed key
| constructed_child parent index child :
    constructed parent -> 0 <= index < 2 ^ 32 ->
    derive_child parent index = Ok child -> constructed child.

(** The invariant of a node: a valid scalar, and the compressed encoding
    of its public key. *)
Definition node_inv (key : HDKey) : Prop :=
  secp256k1_ec_seckey_verify (private_key key) = true /\
  0 < be_val (private_key key) < curve_order /\
  exists pubkey,
    secp256k1_ec_pubkey_create (private_key key) = Some pubkey /\
    public_key key = secp256k1_ec_pubkey_serialize pubkey /\
    length (public_key key) = 33%nat.

End Search.

(** ** A small executable stand-in for the libraries

    Arithmetic on scalars is the real one; the digests and the curve point
    are cheap substitutes of the right sizes. It serves to run the program
    on concrete inputs. *)

Module Toy.

(** Mixes the first and the last four bytes of the input into 16 bits. *)
Definition mix (input : list Z) : Z :=
  fold_left (fun acc x => Z.land (acc * 33 + x) 0xFFFF)
            (take 4 input ++ take 4 (reverse input)) 5381.

Definition digest (len : nat) (input : list Z) : list Z :=
  be_bytes len (mix input).

Definition hash (len : nat) (input : list Z) : list Z :=
  le_bytes len (mix input).

Definition hmac (key data : list Z) : list Z :=
  digest 32 (key ++ data) ++ digest 32 (data ++ key).

Definition pbkdf2 (pass salt : string) (iter : Z) (keylen : nat) : list Z :=
  digest keylen (bytes_of_string pass ++ bytes_of_string salt ++ [iter]).

Definition seckey_verify (seckey : list Z) : bool :=
  (0 <? be_val seckey) && (be_val seckey <? curve_order).

Definition pubkey_create (seckey : list Z) : option Z :=
  if seckey_verify seckey then Some (be_val seckey) else None.

Definition pubkey_serialize (pubkey : Z) : list Z :=
  (2 + pubkey mod 2) :: be_bytes 32 pubkey.

Definition seckey_tweak_add (seckey tweak : list Z) : option (list Z) :=
  let sum := (be_val seckey + be_val tweak) mod curve_order in
  if seckey_verify seckey && (be_val tweak <? curve_order) && negb (sum =? 0)
  then Some (be_bytes 32 sum)
  else None.

End Toy.

(** * Properties *)

Lemma result_bind_Ok {A B} (a : A) (f : A -> result B) : Ok a ≫= f = f a.
Proof. done. Qed.

Ltac consts :=
  change (2 ^ 8) with 256 in *; change (2 ^ 16) with 65536 in *;
  change (2 ^ 32) with 4294967296 in *.

(** ** Digit strings *)

Section Digits.

Variable base : Z.
Hypothesis base_gt_1 : 1 < base.

Lemma le_val_app (a b : list Z) :
  le_val base (a ++ b) = le_val base a + base ^ Z.of_nat (length a) * le_val base b.
Proof.
  induction a as [|d a IH]; simpl le_val.
  - simpl. lia.
  - rewrite IH. change (length (d :: a)) with (S (length a)).
    rewrite Nat2Z.inj_succ, Z.pow_succ_r by lia. ring.
Qed.

Lemma le_val_nonneg (ds : list Z) : digits_in base ds -> 0 <= le_val base ds.
Proof.
  induction 1 as [|d ds Hd _ IH]; simpl; nia.
Qed.

Lemma digits_in_app (a b : list Z) :
  digits_in base (a ++ b) <-> digits_in base a /\ digits_in base b.
Proof. apply Forall_app. Qed.

Lemma canonical_nil : canonical base [].
Proof. split; [constructor | discriminate]. Qed.

Lemma canonical_tail (d : Z) (ds : list Z) :
  canonical base (d :: ds) -> canonical base ds.
Proof.
  intros [Hd Hl]. split.
  - by inversion Hd.
  - destruct ds as [|e ds]; [discriminate | exact Hl].
Qed.

Lemma canonical_pos (ds : list Z) :
  canonical base ds -> ds <> [] -> 0 < le_val base ds.
Proof.
  induction ds as [|d ds IH]; intros Hc Hne; [done|].
  pose proof (canonical_tail _ _ Hc) as Ht.
  destruct Hc as [Hd Hl]. inversion Hd as [|? ? Hd0 Hds]; subst.
  simpl. destruct ds as [|e ds].
  - simpl in *. assert (d <> 0) by congruence. lia.
  - specialize (IH Ht ltac:(discriminate)). nia.
Qed.

Lemma canonical_inj (ds1 ds2 : list Z) :
  canonical base ds1 -> canonical base ds2 ->
  le_val base ds1 = le_val base ds2 -> ds1 = ds2.
Proof.
  revert ds2. induction ds1 as [|d1 ds1 IH]; intros [|d2 ds2] H1 H2 Hv.
  - done.
  - pose proof (canonical_pos _ H2 ltac:(discriminate)). simpl in *. lia.
  - pose proof (canonical_pos _ H1 ltac:(discriminate)). simpl in *. lia.
  - pose proof (canonical_tail _ _ H1) as T1.
    pose proof (canonical_tail _ _ H2) as T2.
    destruct H1 as [D1 _], H2 as [D2 _].
    inversion D1 as [|? ? Hd1 Hds1]; inversion D2 as [|? ? Hd2 Hds2]; subst.
    simpl in Hv.
    assert (le_val base ds1 = le_val base ds2) as Ht by nia.
    assert (d1 = d2) by nia. subst.
    f_equal. by apply IH.
Qed.

Lemma canonical_snoc (ds : list Z) (d : Z) :
  digits_in base ds -> 0 < d < base -> canonical base (ds ++ [d]).
Proof.
  intros Hds Hd. split.
  - apply digits_in_app. split; [done|]. constructor; [lia | constructor].
  - rewrite last_snoc. intros [= ->]. lia.
Qed.

End Digits.

(** ** encode_base58 *)

(** The loop over [j] multiplies the digit string by 256 and adds the
    carry; the carry never leaves the range of a byte, so no store wraps. *)
Lemma enc_mul_spec (b : list Z) : forall carry b' c',
  digits_in 58 b -> 0 <= carry <= 255 -> enc_mul b carry = (b', c') ->
  digits_in 58 b' /\ length b' = length b /\ 0 <= c' <= 255 /\
  le_val 58 b' + 58 ^ Z.of_nat (length b) * c' = carry + 256 * le_val 58 b /\
  (b <> [] -> last b <> Some 0 -> 0 < c').
Proof.
  induction b as [|bj rest IH]; intros carry b' c' Hb Hc Heq.
  - simpl in Heq. injection Heq as <- <-.
    repeat split; [constructor | lia | lia | simpl; lia | done].
  - inversion Hb as [|? ? Hbj Hrest]; subst.
    simpl in Heq. cbv beta in Hbj.
    rewrite Z.shiftl_mul_pow2 in Heq by lia. consts.
    rewrite (Z.mod_small (carry + bj * 256) 65536) in Heq by lia.
    set (carry1 := carry + bj * 256) in *.
    assert (0 <= carry1 <= 14847) as Hc1 by (unfold carry1; lia).
    assert (0 <= carry1 / 58 <= 255) as Hq.
    { split; [apply Z.div_pos; lia|].
      assert (carry1 / 58 < 256); [apply Z.div_lt_upper_bound; lia | lia]. }
    pose proof (Z.mod_pos_bound carry1 58 ltac:(lia)) as Hm.
    rewrite (Z.mod_small (carry1 mod 58) 256) in Heq by lia.
    destruct (enc_mul rest (carry1 / 58)) as [rest' carry'] eqn:Erest.
    injection Heq as <- <-.
    destruct (IH _ _ _ Hrest Hq Erest) as (Hd & Hlen & Hc' & Hval & Hpos).
    repeat split; try lia.
    + constructor; [lia | done].
    + simpl. lia.
    + change (length (bj :: rest)) with (S (length rest)).
      rewrite Nat2Z.inj_succ, Z.pow_succ_r by lia. simpl le_val.
      pose proof (Z.div_mod carry1 58 ltac:(lia)). unfold carry1 in *. lia.
    + intros _ Hlast. destruct rest as [|e rest].
      * simpl in Erest. injection Erest as _ <-.
        assert (bj <> 0) by (intros ->; by apply Hlast).
        assert (4 <= carry1 / 58); [|lia].
        apply Z.div_le_lower_bound; unfold carry1; lia.
      * apply Hpos; [done | exact Hlast].
Qed.

(** The [while] loop appends the base-58 digits of the carry, and the
    fuel it is given is enough. *)
Lemma enc_push_spec (fuel : nat) : forall b carry,
  0 <= carry <= Z.of_nat fuel ->
  exists ds, enc_push fuel b carry = b ++ ds /\ canonical 58 ds /\
             le_val 58 ds = carry.
Proof.
  induction fuel as [|fuel IH]; intros b carry Hc.
  - exists []. simpl. rewrite app_nil_r.
    split; [done|]. split; [apply canonical_nil | lia].
  - simpl. destruct (Z.ltb_spec 0 carry) as [Hpos|Hz].
    + pose proof (Z.mod_pos_bound carry 58 ltac:(lia)) as Hm.
      pose proof (Z.div_mod carry 58 ltac:(lia)) as Hdm.
      assert (0 <= carry / 58) by (apply Z.div_pos; lia).
      consts. rewrite (Z.mod_small (carry mod 58) 256) by lia.
      destruct (IH (b ++ [carry mod 58]) (carry / 58)) as (ds & Heq & Hcan & Hval);
        [lia|].
      exists (carry mod 58 :: ds). rewrite Heq, <- app_assoc. split; [done|].
      split; [|simpl; lia].
      destruct Hcan as [Hd Hl]. split; [constructor; [lia | done]|].
      destruct ds as [|e ds]; [|exact Hl].
      simpl in Hval. simpl. intros [= Hz]. lia.
    + exists []. rewrite app_nil_r. split; [done|].
      split; [apply canonical_nil | simpl; lia].
Qed.

(** One input byte: the digit string stays canonical and its value
    becomes [256 * value + byte]. *)
Lemma enc_byte_spec (b : list Z) (byte : Z) :
  canonical 58 b -> 0 <= byte < 256 ->
  canonical 58 (enc_byte b byte) /\
  le_val 58 (enc_byte b byte) = byte + 256 * le_val 58 b.
Proof.
  intros [Hd Hl] Hbyte. unfold enc_byte.
  destruct (enc_mul b byte) as [b' c'] eqn:Emul.
  destruct (enc_mul_spec b byte b' c' Hd ltac:(lia) Emul)
    as (Hd' & Hlen & Hc' & Hval & Hpos).
  destruct (enc_push_spec (Z.to_nat c') b' c' ltac:(lia))
    as (ds & -> & Hcan & Hds).
  split.
  - split; [apply Forall_app; split; [done | apply Hcan]|].
    rewrite last_app. destruct (last ds) as [y|] eqn:Ey.
    + rewrite <- Ey. apply Hcan.
    + assert (ds = []) as -> by (by destruct ds using rev_ind; [|rewrite last_snoc in Ey]).
      simpl in Hds. subst c'.
      destruct b as [|x b]; [by destruct b'|].
      specialize (Hpos ltac:(done) Hl). lia.
  - rewrite (le_val_app 58), Hlen, Hds. lia.
Qed.


Lemma enc_digits_from (input : list Z) : forall b,
  is_bytes input -> canonical 58 b ->
  canonical 58 (fold_left enc_byte input b) /\
  le_val 58 (fold_left enc_byte input b) = horner 256 (le_val 58 b) input.
Proof.
  induction input as [|x input IH]; intros b Hin Hb; [done|].
  inversion Hin as [|? ? Hx Hrest]; subst.
  destruct (enc_byte_spec b x Hb Hx) as [Hc Hv].
  simpl. destruct (IH _ Hrest Hc) as [Hc' Hv']. split; [done|].
  rewrite Hv', Hv. unfold horner. f_equal. lia.
Qed.

Lemma enc_digits_spec (input : list Z) :
  is_bytes input ->
  canonical 58 (enc_digits input) /\ le_val 58 (enc_digits input) = be_val input.
Proof.
  intros Hin. apply (enc_digits_from input [] Hin (canonical_nil 58)).
Qed.

(** *** The alphabet *)


Lemma alphabet_checked : forallb alphabet_check (seqZ 0 58) = true.
Proof. vm_compute. reflexivity. Qed.

Lemma alphabet_digit (d : Z) :
  0 <= d < 58 ->
  strchr BASE58_CHARS (char_at BASE58_CHARS d) = Some d /\
  (d <> 0 -> Ascii.eqb (char_at BASE58_CHARS d) "1" = false).
Proof.
  intros Hd. pose proof alphabet_checked as H.
  rewrite forallb_forall in H. specialize (H d).
  unfold alphabet_check in H.
  apply andb_prop in H as [H1 H2].
  - split; [by apply bool_decide_eq_true in H1|].
    intros Hne. apply orb_prop in H2 as [H2|H2].
    + by apply bool_decide_eq_true in H2.
    + by apply negb_true_iff.
  - apply list_elem_of_In, elem_of_seqZ. lia.
Qed.

(** *** Leading zeros and leading ones *)

Lemma count_zeros_split (input : list Z) :
  input = replicate (count_zeros input) 0 ++ drop (count_zeros input) input /\
  head (drop (count_zeros input) input) <> Some 0.
Proof.
  induction input as [|x input [IH1 IH2]]; [done|].
  destruct (decide (x = 0)) as [->|Hx].
  - simpl. split; [by f_equal | done].
  - assert (count_zeros (x :: input) = O) as ->
      by (destruct x; [done | done | done]).
    simpl. split; [done | congruence].
Qed.

Lemma count_zeros_le (input : list Z) : (count_zeros input <= length input)%nat.
Proof.
  induction input as [|x input IH]; [done|].
  destruct x; simpl; lia.
Qed.

Lemma leading_ones_replicate (z : nat) (rest : list ascii) :
  leading_ones (replicate z "1"%char ++ rest) = (z + leading_ones rest)%nat.
Proof. induction z as [|z IH]; [done|]. simpl. by rewrite IH. Qed.

Lemma leading_ones_digits (b : list Z) :
  canonical 58 b -> leading_ones (char_at BASE58_CHARS <$> reverse b) = O.
Proof.
  intros [Hd Hl]. rewrite <- head_reverse in Hl.
  apply Forall_reverse in Hd.
  destruct (reverse b) as [|d ds]; [done|].
  inversion Hd as [|? ? Hd0 _]; subst. simpl.
  destruct (alphabet_digit d Hd0) as [_ H]. rewrite H; [done|].
  intros ->. by apply Hl.
Qed.

(** ** decode_base58 *)

(** The loop over [i] multiplies the byte string by 58 and adds the
    digit; no store wraps. *)
Lemma dec_mul_spec (bn : list Z) : forall digit bn' d',
  digits_in 256 bn -> 0 <= digit <= 57 -> dec_mul bn digit = (bn', d') ->
  digits_in 256 bn' /\ length bn' = length bn /\ 0 <= d' <= 57 /\
  le_val 256 bn' + 256 ^ Z.of_nat (length bn) * d' = digit + 58 * le_val 256 bn /\
  (bn <> [] -> last bn <> Some 0 -> 0 < d' \/ last bn' <> Some 0).
Proof.
  induction bn as [|x rest IH]; intros digit bn' d' Hb Hd Heq.
  - simpl in Heq. injection Heq as <- <-.
    repeat split; [constructor | lia | lia | simpl; lia | done].
  - inversion Hb as [|? ? Hx Hrest]; subst. cbv beta in Hx.
    simpl in Heq. consts.
    rewrite (Z.mod_small (x * 58 + digit) 4294967296) in Heq by lia.
    set (carry := x * 58 + digit) in *.
    assert (0 <= carry <= 14847) as Hc by (unfold carry; lia).
    change 255 with (Z.ones 8) in Heq.
    rewrite Z.land_ones, Z.shiftr_div_pow2 in Heq by lia. consts.
    assert (0 <= carry / 256 <= 57) as Hq.
    { split; [apply Z.div_pos; lia|].
      assert (carry / 256 < 58); [apply Z.div_lt_upper_bound; lia | lia]. }
    pose proof (Z.mod_pos_bound carry 256 ltac:(lia)) as Hm.
    rewrite (Z.mod_small (carry / 256) 65536) in Heq by lia.
    rewrite (Z.mod_small (carry mod 256) 65536) in Heq by lia.
    destruct (dec_mul rest (carry / 256)) as [rest' digit'] eqn:Erest.
    injection Heq as <- <-.
    destruct (IH _ _ _ Hrest Hq Erest) as (Hd' & Hlen & Hc' & Hval & Hlast).
    repeat split; try lia.
    + constructor; [lia | done].
    + simpl. lia.
    + change (length (x :: rest)) with (S (length rest)).
      rewrite Nat2Z.inj_succ, Z.pow_succ_r by lia. simpl le_val.
      pose proof (Z.div_mod carry 256 ltac:(lia)). unfold carry in *. lia.
    + intros _ Hl. destruct rest as [|e rest].
      * simpl in Erest. injection Erest as <- <-.
        assert (x <> 0) by (intros ->; by apply Hl).
        destruct (decide (carry / 256 = 0)) as [Hz|Hnz]; [right | left; lia].
        simpl. intros [= Hmz].
        pose proof (Z.div_mod carry 256 ltac:(lia)). unfold carry in *. lia.
      * destruct (Hlast ltac:(done) Hl) as [?|Hr]; [by left | right].
        destruct rest' as [|e' rest']; [done | exact Hr].
Qed.

Lemma dec_char_spec (bn : list Z) (d : Z) :
  canonical 256 bn -> 0 <= d < 58 ->
  exists bn', dec_char bn (char_at BASE58_CHARS d) = Ok bn' /\
              canonical 256 bn' /\ le_val 256 bn' = d + 58 * le_val 256 bn.
Proof.
  intros [Hb Hl] Hd. unfold dec_char.
  destruct (alphabet_digit d Hd) as [-> _]. consts.
  rewrite (Z.mod_small d 65536) by lia.
  destruct (dec_mul bn d) as [bn' d'] eqn:Emul.
  destruct (dec_mul_spec bn d bn' d' Hb ltac:(lia) Emul)
    as (Hb' & Hlen & Hd' & Hval & Hlast).
  eexists. split; [done|].
  destruct (Z.ltb_spec 0 d') as [Hpos|Hz].
  - split; [apply canonical_snoc; [done | lia]|].
    rewrite (le_val_app 256), Hlen. simpl. lia.
  - assert (d' = 0) as -> by lia. split; [|lia]. split; [done|].
    destruct bn as [|x bn]; [by destruct bn'|].
    destruct (Hlast ltac:(done) Hl); [lia | done].
Qed.

Lemma dec_digits_spec (ds : list Z) : forall bn,
  digits_in 58 ds -> canonical 256 bn ->
  exists bn', dec_digits bn (char_at BASE58_CHARS <$> ds) = Ok bn' /\
              canonical 256 bn' /\
              le_val 256 bn' = horner 58 (le_val 256 bn) ds.
Proof.
  induction ds as [|d ds IH]; intros bn Hds Hbn.
  - by exists bn.
  - inversion Hds as [|? ? Hd Hrest]; subst.
    destruct (dec_char_spec bn d Hbn Hd) as (bn1 & E1 & C1 & V1).
    destruct (IH bn1 Hrest C1) as (bn2 & E2 & C2 & V2).
    exists bn2. simpl. rewrite E1. simpl. split; [done|]. split; [done|].
    rewrite V2, V1. unfold horner. f_equal. lia.
Qed.

Lemma horner_app (base acc : Z) (a b : list Z) :
  horner base acc (a ++ b) = horner base (horner base acc a) b.
Proof. apply fold_left_app. Qed.

Lemma horner_reverse (base : Z) (ds : list Z) : forall acc,
  horner base acc (reverse ds) =
  le_val base ds + base ^ Z.of_nat (length ds) * acc.
Proof.
  induction ds as [|d ds IH]; intros acc.
  - simpl. lia.
  - rewrite reverse_cons, horner_app, IH.
    change (length (d :: ds)) with (S (length ds)).
    rewrite Nat2Z.inj_succ, Z.pow_succ_r by lia. simpl. lia.
Qed.

Lemma horner_zeros (base : Z) (z : nat) : horner base 0 (replicate z 0) = 0.
Proof. induction z as [|z IH]; [done|]. simpl. exact IH. Qed.

Lemma put_zeros_ones (z : nat) (rest : list ascii) : forall pre suf,
  leading_ones rest = O ->
  put_zeros (replicate z "1"%char ++ rest)
            (pre ++ replicate z 0 ++ suf) (length pre) =
  (pre ++ replicate z 0 ++ suf, (length pre + z)%nat).
Proof.
  induction z as [|z IH]; intros pre suf Hrest.
  - simpl. rewrite Nat.add_0_r. destruct rest as [|c rest]; [done|].
    simpl in *. by destruct (Ascii.eqb c "1").
  - simpl replicate. simpl app at 1. cbn [put_zeros].
    change (Ascii.eqb "1" "1") with true.
    assert (Nat.ltb (length pre) (length (pre ++ (0 :: replicate z 0) ++ suf)) = true) as ->.
    { apply Nat.ltb_lt. rewrite !length_app. simpl. lia. }
    simpl andb.
    replace (<[length pre:=0]> (pre ++ (0 :: replicate z 0) ++ suf))
      with ((pre ++ [0]) ++ replicate z 0 ++ suf).
    2:{ rewrite <- (Nat.add_0_r (length pre)), insert_app_r. simpl.
        by rewrite <- app_assoc. }
    replace (S (length pre)) with (length (pre ++ [0]))
      by (rewrite length_app; simpl; lia).
    rewrite (IH (pre ++ [0]) suf Hrest), length_app, <- app_assoc. simpl.
    f_equal. lia.
Qed.

Lemma put_bytes_fill (rbn : list Z) : forall pre suf,
  is_bytes rbn -> length suf = length rbn ->
  put_bytes rbn (pre ++ suf) (length pre) =
  (pre ++ rbn, (length pre + length rbn)%nat).
Proof.
  induction rbn as [|x rbn IH]; intros pre suf Hb Hlen.
  - destruct suf; [|done]. simpl. by rewrite Nat.add_0_r.
  - destruct suf as [|y suf]; [done|].
    inversion Hb as [|? ? Hx Hrest]; subst. cbv beta in Hx.
    cbn [put_bytes].
    assert (Nat.ltb (length pre) (length (pre ++ y :: suf)) = true) as ->.
    { apply Nat.ltb_lt. rewrite length_app. simpl. lia. }
    consts. rewrite (Z.mod_small x 256) by lia.
    replace (<[length pre:=x]> (pre ++ y :: suf)) with ((pre ++ [x]) ++ suf).
    2:{ rewrite <- (Nat.add_0_r (length pre)), insert_app_r. simpl.
        by rewrite <- app_assoc. }
    replace (S (length pre)) with (length (pre ++ [x]))
      by (rewrite length_app; simpl; lia).
    rewrite (IH (pre ++ [x]) suf Hrest), length_app, <- app_assoc.
    + simpl. f_equal. lia.
    + simpl in Hlen. lia.
Qed.

Lemma is_bytes_drop (n : nat) (input : list Z) :
  is_bytes input -> is_bytes (drop n input).
Proof. apply Forall_drop. Qed.

Lemma encode_chars_digits (input : list Z) :
  encode_base58_chars input =
  char_at BASE58_CHARS <$>
    (replicate (count_zeros input) 0
     ++ reverse (enc_digits (drop (count_zeros input) input))).
Proof.
  unfold encode_base58_chars. by rewrite fmap_app, fmap_replicate.
Qed.

(** The digits decoded from an encoding are the bytes after the leading
    zeros, least significant first. *)
Lemma dec_digits_encode (input : list Z) :
  is_bytes input ->
  dec_digits [] (encode_base58_chars input) =
  Ok (reverse (drop (count_zeros input) input)).
Proof.
  intros Hin. set (z := count_zeros input).
  pose proof (is_bytes_drop z input Hin) as Hrest.
  destruct (enc_digits_spec (drop z input) Hrest) as [Hcan Hval].
  destruct (count_zeros_split input) as [_ Hhead]. fold z in Hhead.
  rewrite encode_chars_digits. fold z.
  destruct (dec_digits_spec
              (replicate z 0 ++ reverse (enc_digits (drop z input))) [])
    as (bn & -> & Hbn & Hv).
  - apply Forall_app. split.
    + apply Forall_replicate. lia.
    + apply Forall_reverse, Hcan.
  - apply canonical_nil.
  - f_equal. apply (canonical_inj 256); [lia | done | |].
    + split; [by apply Forall_reverse|]. by rewrite last_reverse.
    + rewrite Hv. simpl le_val at 1.
      rewrite horner_app, horner_zeros, horner_reverse, Hval.
      rewrite <- (reverse_involutive (drop z input)) at 1.
      unfold be_val. change (fold_left _ ?l 0) with (horner 256 0 l).
      rewrite horner_reverse. lia.
Qed.

(** C2. Round trip: decoding the Base58 encoding of a 25-byte array gives
    the array back. *)
Theorem decode_encode_25 (B : list Z) :
  length B = 25%nat -> is_bytes B ->
  decode_base58 (encode_base58 B) = Ok B.
Proof.
  intros Hlen HB. unfold decode_base58, encode_base58.
  rewrite list_ascii_of_string_of_list_ascii, (dec_digits_encode B HB).
  unfold mbind, result_bind. cbv beta iota zeta.
  destruct (count_zeros_split B) as [Hsplit _].
  pose proof (count_zeros_le B) as Hz.
  pose proof (leading_ones_digits (enc_digits (drop (count_zeros B) B))
                (proj1 (enc_digits_spec _ (is_bytes_drop _ _ HB)))) as Hones.
  pose proof (is_bytes_drop (count_zeros B) B HB) as Hrest.
  unfold encode_base58_chars.
  remember (count_zeros B) as z eqn:Ez.
  assert (length (drop z B) = (25 - z)%nat) as Hd by (rewrite length_drop; lia).
  replace (replicate 25 0) with (replicate z 0 ++ replicate (25 - z) 0)
    by (rewrite <- replicate_add; f_equal; lia).
  pose proof (put_zeros_ones z _ [] (replicate (25 - z) 0) Hones) as Hpz.
  cbn [app length Nat.add] in Hpz. rewrite Hpz, reverse_involutive.
  pose proof (put_bytes_fill (drop z B) (replicate z 0) (replicate (25 - z) 0)
                Hrest ltac:(by rewrite length_replicate, Hd)) as Hpb.
  rewrite length_replicate in Hpb. rewrite Hpb, <- Hsplit, Hd.
  rewrite bool_decide_eq_false_2; [done|]. lia.
Qed.

(** C8. The number of '1' characters at the start of the encoding of a
    byte array is the number of zero bytes at the start of the array. *)
Theorem encode_leading_ones (B : list Z) :
  is_bytes B ->
  leading_ones (list_ascii_of_string (encode_base58 B)) = count_zeros B.
Proof.
  intros HB. unfold encode_base58, encode_base58_chars.
  rewrite list_ascii_of_string_of_list_ascii, leading_ones_replicate.
  rewrite leading_ones_digits; [lia|].
  by apply enc_digits_spec, is_bytes_drop.
Qed.

(** *** decode_base58: length of the result and foreign characters *)

Lemma put_zeros_length (input : list ascii) : forall res pos res' pos',
  put_zeros input res pos = (res', pos') -> length res' = length res.
Proof.
  induction input as [|c input IH]; intros res pos res' pos' H; simpl in H.
  - by injection H as <- _.
  - destruct (Ascii.eqb c "1" && (pos <? length res)%nat).
    + apply IH in H. by rewrite length_insert in H.
    + by injection H as <- _.
Qed.

Lemma put_bytes_length (rbn : list Z) : forall res pos res' pos',
  put_bytes rbn res pos = (res', pos') -> length res' = length res.
Proof.
  induction rbn as [|x rbn IH]; intros res pos res' pos' H; simpl in H.
  - by injection H as <- _.
  - destruct (pos <? length res)%nat.
    + apply IH in H. by rewrite length_insert in H.
    + by injection H as <- _.
Qed.

Lemma decode_base58_length (input : string) (bytes : list Z) :
  decode_base58 input = Ok bytes -> length bytes = 25%nat.
Proof.
  unfold decode_base58.
  destruct (dec_digits [] (list_ascii_of_string input)) as [bn|e]; [|done].
  rewrite result_bind_Ok.
  destruct (put_zeros _ _ _) as [res1 pos1] eqn:E1.
  destruct (put_bytes _ _ _) as [res2 pos2] eqn:E2.
  apply put_zeros_length in E1. apply put_bytes_length in E2.
  destruct (bool_decide (pos2 ≠ length res2)); [done|].
  intros [= <-]. by rewrite E2, E1.
Qed.

Lemma strchr_from_None (s : string) (c : ascii) : forall off,
  c <> Ascii.zero -> c ∉ list_ascii_of_string s -> strchr_from off s c = None.
Proof.
  induction s as [|a s IH]; intros off Hz Hc; simpl.
  - destruct (Ascii.eqb_spec c Ascii.zero); done.
  - simpl in Hc. apply not_elem_of_cons in Hc as [Hne Hc].
    destruct (Ascii.eqb_spec a c); [congruence|]. by apply IH.
Qed.

Lemma dec_digits_rejects (input : list ascii) (c : ascii) : forall bn,
  c ∈ input -> strchr BASE58_CHARS c = None ->
  dec_digits bn input = Throw InvalidBase58Character.
Proof.
  induction input as [|a input IH]; intros bn Hin Hc.
  - by apply elem_of_nil in Hin.
  - simpl. unfold dec_char at 1.
    destruct (strchr BASE58_CHARS a) as [off|] eqn:Ea; [|done].
    destruct (dec_mul bn (off mod 2 ^ 16)) as [bn' digit].
    rewrite result_bind_Ok. apply IH; [|done].
    apply elem_of_cons in Hin as [->|Hin]; [congruence | done].
Qed.

(** Every string with a character other than NUL outside the alphabet is
    rejected for that character, whatever else it holds. *)
Lemma decode_base58_rejects (input : string) (c : ascii) :
  c ∈ list_ascii_of_string input -> c <> Ascii.zero ->
  c ∉ list_ascii_of_string BASE58_CHARS ->
  decode_base58 input = Throw InvalidBase58Character.
Proof.
  intros Hin Hz Hc. unfold decode_base58.
  rewrite (dec_digits_rejects _ c); [done | done |].
  by apply strchr_from_None.
Qed.

(** C4. The length check misses inputs that are too long: both copy
    loops stop at [pos = 25], so [pos != result.size()] cannot see the
    bytes that were left out. The encoding of 26 zero bytes decodes to 25
    zero bytes, and the encoding of the bytes 1..26 decodes to the bytes
    1..25; neither raises the length error. *)
Theorem decode_truncates :
  encode_base58 (replicate 26 0) = "11111111111111111111111111"%string /\
  decode_base58 "11111111111111111111111111" = Ok (replicate 25 0) /\
  encode_base58 (seqZ 1 26) = "2npUZst1BgFBxVDtoyk22kqNETtxjNaYqZK"%string /\
  decode_base58 "2npUZst1BgFBxVDtoyk22kqNETtxjNaYqZK" = Ok (seqZ 1 25).
Proof. vm_compute. done. Qed.

(** A result that is too short does raise the length error. *)
Lemma decode_short :
  decode_base58 "111111111111111111111111"
  = Throw InvalidLength.
Proof. vm_compute. done. Qed.

(** C5. The NUL character is outside the alphabet, but [strchr] finds
    the terminator of [BASE58_CHARS] for it, so it is read as the digit
    58: a string of 24 characters '1' followed by NUL decodes to an
    address, and the string made of NUL alone fails with the length error
    instead of the character error. *)
Theorem decode_accepts_nul :
  strchr BASE58_CHARS Ascii.zero = Some 58 /\
  decode_base58 ("111111111111111111111111" ++ String Ascii.zero "")
  = Ok (replicate 24 0 ++ [58]) /\
  decode_base58 (String Ascii.zero "") = Throw InvalidLength.
Proof. vm_compute. done. Qed.

(** ** Keys *)

(** *** Big-endian encodings *)

Lemma length_le_bytes (len : nat) : forall v, length (le_bytes len v) = len.
Proof. induction len as [|len IH]; intros v; simpl; [done | by rewrite IH]. Qed.

Lemma length_be_bytes (len : nat) (v : Z) : length (be_bytes len v) = len.
Proof. unfold be_bytes. by rewrite length_reverse, length_le_bytes. Qed.

Lemma le_val_le_bytes (len : nat) : forall v,
  le_val 256 (le_bytes len v) = v mod 256 ^ Z.of_nat len.
Proof.
  induction len as [|len IH]; intros v.
  - simpl. by rewrite Z.mod_1_r.
  - cbn [le_bytes le_val]. rewrite IH, Nat2Z.inj_succ, Z.pow_succ_r by lia.
    rewrite Z.rem_mul_r; [done | lia |]. apply Z.pow_pos_nonneg; lia.
Qed.

Lemma be_val_reverse (ds : list Z) : be_val (reverse ds) = le_val 256 ds.
Proof.
  unfold be_val. change (fold_left _ ?l 0) with (horner 256 0 l).
  rewrite horner_reverse. lia.
Qed.

Lemma be_val_be_bytes (len : nat) (v : Z) :
  be_val (be_bytes len v) = v mod 256 ^ Z.of_nat len.
Proof. unfold be_bytes. by rewrite be_val_reverse, le_val_le_bytes. Qed.

Lemma index_bytes (index : Z) :
  [Z.land (Z.shiftr index 24) 0xFF; Z.land (Z.shiftr index 16) 0xFF;
   Z.land (Z.shiftr index 8) 0xFF; Z.land index 0xFF] = be_bytes 4 index.
Proof.
  change 0xFF with (Z.ones 8).
  rewrite !Z.land_ones, !Z.shiftr_div_pow2 by lia.
  unfold be_bytes. cbn [le_bytes]. unfold reverse. cbn [rev_append].
  rewrite !Z.div_div by lia. reflexivity.
Qed.

Section KeyFacts.

Context {digests : Digests} {secp : Secp256k1}.

Lemma hash160_length (input : list Z) : length (hash160 input) = 20%nat.
Proof. apply RIPEMD160_length. Qed.

Lemma sha256_length (input : list Z) : length (sha256 input) = 32%nat.
Proof. apply SHA256_length. Qed.

Lemma copy_to_middle (src pre mid suf : list Z) :
  length mid = length src ->
  copy_to src (pre ++ mid ++ suf) (length pre) = pre ++ src ++ suf.
Proof.
  intros Hlen. unfold copy_to.
  rewrite <- (Nat.add_0_r (length pre)), list_inserts_app_r.
  by rewrite list_inserts_0_r.
Qed.

Lemma HDKey_new_valid (seckey chain : list Z) :
  secp256k1_ec_seckey_verify seckey = true ->
  exists pubkey,
    secp256k1_ec_pubkey_create seckey = Some pubkey /\
    HDKey_new seckey chain =
      Ok (mkHDKey seckey chain (secp256k1_ec_pubkey_serialize pubkey)).
Proof.
  intros Hv. unfold HDKey_new.
  destruct (secp256k1_ec_pubkey_create seckey) as [pubkey|] eqn:E.
  - exists pubkey. split; [done|].
    by rewrite pubkey_serialize_length, bool_decide_eq_true_2.
  - apply pubkey_create_spec in E. congruence.
Qed.

Lemma node_inv_intro (seckey chain : list Z) (pubkey : secp256k1_pubkey) :
  secp256k1_ec_seckey_verify seckey = true ->
  secp256k1_ec_pubkey_create seckey = Some pubkey ->
  node_inv (mkHDKey seckey chain (secp256k1_ec_pubkey_serialize pubkey)).
Proof.
  intros Hv Hp. split; [done|]. split; [by apply seckey_verify_spec|].
  exists pubkey. simpl. split; [done|]. split; [done|].
  apply pubkey_serialize_length.
Qed.

Lemma HDKey_new_inv (seckey chain : list Z) (key : HDKey) :
  HDKey_new seckey chain = Ok key -> node_inv key.
Proof.
  intros Hn.
  destruct (secp256k1_ec_seckey_verify seckey) eqn:Hv.
  - destruct (HDKey_new_valid seckey chain Hv) as (pubkey & Hp & Heq).
    rewrite Heq in Hn. injection Hn as <-. by apply node_inv_intro.
  - apply pubkey_create_spec in Hv. unfold HDKey_new in Hn.
    by rewrite Hv in Hn.
Qed.

Lemma from_seed_inv (seed : list Z) (key : HDKey) :
  from_seed seed = Ok key -> node_inv key.
Proof.
  unfold from_seed.
  destruct (secp256k1_ec_seckey_verify _) eqn:Hv; simpl; [|done].
  destruct (HDKey_new_valid _ (drop 32 (hmac_sha512 (bytes_of_string "Bitcoin seed") seed)) Hv)
    as (pubkey & Hp & ->).
  intros [= <-]. by apply node_inv_intro.
Qed.

Lemma derive_child_tweak (parent : HDKey) (index : Z) :
  let blob :=
    (if bool_decide (2 ^ 31 <= index)
     then [0] ++ private_key parent else public_key parent)
    ++ be_bytes 4 index in
  let I := HMAC_SHA512 (chain_code parent) blob in
  match secp256k1_ec_seckey_tweak_add (private_key parent) (take 32 I) with
  | Some scalar =>
      secp256k1_ec_seckey_verify scalar = true /\
      exists pubkey,
        secp256k1_ec_pubkey_create scalar = Some pubkey /\
        derive_child parent index =
          Ok (mkHDKey scalar (drop 32 I) (secp256k1_ec_pubkey_serialize pubkey))
  | None => derive_child parent index = Throw InvalidChildKey
  end.
Proof.
  intros blob I. unfold derive_child. rewrite index_bytes.
  assert ((if 0x80000000 <=? index then [0] ++ private_key parent
           else public_key parent) ++ be_bytes 4 index = blob) as ->.
  { unfold blob. change (2 ^ 31) with 0x80000000.
    by destruct (Z.leb_spec 0x80000000 index);
      [rewrite bool_decide_eq_true_2 | rewrite bool_decide_eq_false_2 by lia]. }
  unfold hmac_sha512. fold I.
  destruct (secp256k1_ec_seckey_tweak_add _ _) as [scalar|] eqn:Et; [|done].
  destruct (seckey_tweak_add_Some _ _ _ Et) as [Hv _]. split; [done|].
  destruct (HDKey_new_valid scalar (replicate 32 0) Hv) as (pubkey & Hp & ->).
  by exists pubkey.
Qed.

Lemma derive_child_inv (parent child : HDKey) (index : Z) :
  derive_child parent index = Ok child -> node_inv child.
Proof.
  intros Hd. pose proof (derive_child_tweak parent index) as H.
  cbv zeta in H.
  destruct (secp256k1_ec_seckey_tweak_add _ _) as [scalar|]; [|congruence].
  destruct H as (Hv & pubkey & Hp & Heq).
  rewrite Heq in Hd. injection Hd as <-. by apply node_inv_intro.
Qed.

(** C7. The address of a node is 25 bytes: the version byte 0x00, the
    20-byte RIPEMD-160 of the SHA-256 of its public key, and the first 4
    bytes of the double SHA-256 of these 21 bytes. *)
Theorem get_address_layout (key : HDKey) :
  let h160 := RIPEMD160 (SHA256 (public_key key)) in
  let checksum := SHA256 (SHA256 ([0x00] ++ h160)) in
  get_address key = [0x00] ++ h160 ++ take 4 checksum /\
  length (get_address key) = 25%nat /\
  length h160 = 20%nat /\ length (take 4 checksum) = 4%nat.
Proof.
  intros h160 checksum.
  assert (length h160 = 20%nat) as Hh by apply RIPEMD160_length.
  assert (length (take 4 checksum) = 4%nat) as Hc
    by (unfold checksum; rewrite length_take, SHA256_length; done).
  assert (get_address key = [0x00] ++ h160 ++ take 4 checksum) as Heq.
  { assert (copy_to h160 (<[0%nat:=0x00]> (replicate 25 0)) 1
            = [0] ++ h160 ++ replicate 4 0) as E1.
    { apply (copy_to_middle h160 [0] (replicate 20 0) (replicate 4 0)).
      by rewrite length_replicate. }
    assert (length ([0] ++ h160) = 21%nat) as Hpre
      by (rewrite length_app, Hh; done).
    assert (take 21 ([0] ++ h160 ++ replicate 4 0) = [0] ++ h160) as E2.
    { rewrite app_assoc, <- Hpre. apply take_app_length. }
    pose proof (copy_to_middle (take 4 checksum) ([0] ++ h160)
                  (replicate 4 0) []
                  ltac:(by rewrite Hc, length_replicate)) as E3.
    rewrite Hpre, !app_nil_r, <- !app_assoc in E3.
    unfold get_address, hash160, sha256. fold h160.
    rewrite E1, E2. exact E3. }
  split; [done|]. split; [|done].
  rewrite Heq, !length_app, Hh, Hc. done.
Qed.

(** C3. [derive_child] feeds HMAC-SHA512, keyed by the chain code of the
    parent, with [0x00 || scalar || index] when [index >= 2^31] and with
    [public key || index] otherwise, the index on 4 bytes, big-endian.
    With [I_L] and [I_R] the two halves of the result, the child holds the
    scalar that the library's tweak-add returns, which is
    [(scalar + I_L) mod n], the chain code [I_R] and the public key of
    its scalar. It throws, and then [InvalidChildKey], exactly when the
    tweak-add fails: for a valid parent, when [I_L >= n] or the sum is
    zero modulo [n]. *)
Theorem derive_child_spec (parent : HDKey) (index : Z) :
  0 <= index < 2 ^ 32 ->
  let blob :=
    (if bool_decide (2 ^ 31 <= index)
     then [0x00] ++ private_key parent else public_key parent)
    ++ be_bytes 4 index in
  let I := HMAC_SHA512 (chain_code parent) blob in
  let I_L := take 32 I in
  let I_R := drop 32 I in
  length (be_bytes 4 index) = 4%nat /\ be_val (be_bytes 4 index) = index /\
  length I_L = 32%nat /\ length I_R = 32%nat /\
  match secp256k1_ec_seckey_tweak_add (private_key parent) I_L with
  | Some scalar =>
      be_val scalar = (be_val (private_key parent) + be_val I_L) mod curve_order /\
      exists pubkey,
        secp256k1_ec_pubkey_create scalar = Some pubkey /\
        derive_child parent index =
          Ok (mkHDKey scalar I_R (secp256k1_ec_pubkey_serialize pubkey))
  | None => derive_child parent index = Throw InvalidChildKey
  end /\
  (forall e, derive_child parent index = Throw e -> e = InvalidChildKey) /\
  (derive_child parent index = Throw InvalidChildKey <->
   secp256k1_ec_seckey_tweak_add (private_key parent) I_L = None) /\
  (secp256k1_ec_seckey_verify (private_key parent) = true ->
   (derive_child parent index = Throw InvalidChildKey <->
    curve_order <= be_val I_L \/
    (be_val (private_key parent) + be_val I_L) mod curve_order = 0)).
Proof.
  intros Hidx blob I I_L I_R.
  pose proof (derive_child_tweak parent index) as H. cbv zeta in H.
  fold blob I I_L I_R in H.
  split; [apply length_be_bytes|].
  split; [rewrite be_val_be_bytes; apply Z.mod_small; done|].
  assert (length I = 64%nat) as HI by apply HMAC_SHA512_length.
  split; [unfold I_L; rewrite length_take, HI; done|].
  split; [unfold I_R; rewrite length_drop, HI; done|].
  pose proof (seckey_tweak_add_None (private_key parent) I_L) as Hnone.
  destruct (secp256k1_ec_seckey_tweak_add (private_key parent) I_L)
    as [scalar|] eqn:Et.
  - destruct H as (Hv & pubkey & Hp & Heq). rewrite Heq.
    split; [|split; [done|split; [done|]]].
    + split; [by apply (seckey_tweak_add_Some _ _ _ Et)|]. by exists pubkey.
    + intros Hvalid. split; [done|]. intros Hbad.
      assert (Some scalar = None) as Hn by (apply Hnone; by right). done.
  - rewrite H. split; [done|]. split; [by intros e [= <-]|].
    split; [done|]. intros Hvalid. split; [|done]. intros _.
    destruct (proj1 Hnone eq_refl) as [Hinv|Hbad]; [congruence | done].
Qed.

(** C9. Every node built by the constructor, by [from_seed] or by
    [derive_child] from such a node holds a valid scalar (accepted by the library, that is non-zero
    and below the curve order) and the 33-byte compressed encoding of the
    public key of that scalar. *)
Theorem constructed_node_inv (key : HDKey) : constructed key -> node_inv key.
Proof.
  induction 1 as [sk cc key Hn | seed key Hs | parent index child _ _ _ Hd].
  - by eapply HDKey_new_inv.
  - by eapply from_seed_inv.
  - by eapply derive_child_inv.
Qed.

End KeyFacts.

(** ** The search *)

(** *** The loops *)

Lemma M_bind_assoc {A B C} (m : M A) (f : A -> M B) (g : B -> M C) :
  (m ≫= f) ≫= g = m ≫= (fun a => f a ≫= g).
Proof.
  destruct m as [log [a|e]]; [|done]. unfold mbind, M_bind.
  destruct (f a) as [log1 [b|e]]; [|done].
  destruct (g b) as [log2 r]. by rewrite app_assoc.
Qed.

Lemma M_bind_ret_l {A B} (a : A) (f : A -> M B) : mret a ≫= f = f a.
Proof. unfold mbind, mret, M_bind, M_ret. by destruct (f a). Qed.

Ltac unfold_M :=
  unfold and_then, tell, lift in *; unfold mbind, mret in *;
  unfold M_bind, M_ret in *.

Lemma for_each_app {A R} (xs ys : list A) (body : A -> M (option R)) :
  for_each (xs ++ ys) body =
  for_each xs body ≫= fun r => and_then r (for_each ys body).
Proof.
  induction xs as [|x xs IH]; simpl.
  - unfold_M. by destruct (for_each ys body).
  - rewrite IH. unfold_M.
    destruct (body x) as [log [[y|]|e]]; [by rewrite !app_nil_r | | done].
    destruct (for_each xs body) as [log1 [[y|]|e]]; [by rewrite !app_nil_r | | done].
    destruct (for_each ys body) as [log2 r]. by rewrite app_assoc.
Qed.

Lemma for_each_bind {A B R} (xs : list A) (f : A -> list B)
    (body : B -> M (option R)) :
  for_each (xs ≫= f) body = for_each xs (fun x => for_each (f x) body).
Proof.
  induction xs as [|x xs IH]; [done|].
  change ((x :: xs) ≫= f) with (f x ++ (xs ≫= f)).
  rewrite for_each_app, IH. simpl. unfold_M.
  destruct (for_each (f x) body) as [log [[y|]|e]]; done.
Qed.

Lemma for_each_ext {A R} (xs : list A) (body1 body2 : A -> M (option R)) :
  (forall x, x ∈ xs -> body1 x = body2 x) ->
  for_each xs body1 = for_each xs body2.
Proof.
  induction xs as [|x xs IH]; intros H; [done|]. simpl.
  rewrite (H x), IH; [done | | by left].
  intros y Hy. apply H. by right.
Qed.

Lemma for_range_seqZ {R} (n : nat) : forall (i : Z) (body : Z -> M (option R)),
  for_range n i body = for_each (seqZ i (Z.of_nat n)) body.
Proof.
  induction n as [|n IH]; intros i body; [done|].
  rewrite seqZ_cons by lia. simpl for_each. cbn [for_range].
  rewrite IH. by replace (Z.pred (Z.of_nat (S n))) with (Z.of_nat n) by lia.
Qed.

Lemma for_each_fmap {A B R} (f : A -> B) (xs : list A) (body : B -> M (option R)) :
  for_each (f <$> xs) body = for_each xs (fun x => body (f x)).
Proof.
  induction xs as [|x xs IH]; [done|].
  change (f <$> x :: xs) with (f x :: (f <$> xs)). cbn [for_each].
  by rewrite IH.
Qed.

Lemma tell_bind {B} (evs : list event) (f : unit -> M B) :
  tell evs ≫= f = let '(log, r) := f tt in (evs ++ log, r).
Proof. done. Qed.

Lemma lift_Ok_bind {A B} (a : A) (f : A -> M B) : lift (Ok a) ≫= f = f a.
Proof. unfold_M. by destruct (f a). Qed.

Lemma hardened_account : Forall (fun i => Z.lor 0x80000000 i = hardened i) (seqZ 0 20).
Proof. apply (bool_decide_unpack _). vm_compute. exact I. Qed.

Lemma report_print (mnemonic : string) (path : list Z) (legacy : bool) (i j k : Z) :
  [Cout (Str mnemonic)] ++ print_path path
    ++ (if negb legacy then [Cout (Str "/"); Cout (Num i)] else [])
    ++ [Cout (Str "/"); Cout (Num j); Cout (Str "/"); Cout (Num k); Cout Endl]
  = report mnemonic (mkCandidate path (if legacy then None else Some i) j k).
Proof.
  unfold report. cbn [cand_path cand_account cand_change cand_index].
  rewrite !fmap_app. f_equal. f_equal.
  - unfold print_path. induction path as [|p path IH]; [done|].
    change ((p :: path) ≫= ?f) with (f p ++ (path ≫= f)).
    rewrite fmap_app, <- IH. done.
  - by destruct legacy.
Qed.

Section SearchFacts.

Context {digests : Digests} {secp : Secp256k1}.

Lemma derive_path_app (key : HDKey) (p q : list Z) :
  derive_path key (p ++ q) = derive_path key p ≫= fun key' => derive_path key' q.
Proof.
  revert key. induction p as [|i p IH]; intros key; [done|].
  simpl. destruct (derive_child key i) as [key'|e]; [apply IH | done].
Qed.

Lemma family_of_in (path : list Z) : Forall (in_family path) (family_of path).
Proof.
  apply Forall_forall. intros c Hc. unfold family_of in Hc.
  apply list_elem_of_bind in Hc as (i & Hc & Hi).
  apply list_elem_of_bind in Hc as (j & Hc & Hj).
  apply list_elem_of_fmap in Hc as (k & -> & Hk).
  split; [done|]. simpl.
  destruct (bool_decide (length path = 0%nat)); [done|].
  by apply (proj1 (Forall_forall _ _) hardened_account).
Qed.

Lemma family_of_cons (path : list Z) :
  exists c cs, family_of path = c :: cs.
Proof.
  unfold family_of.
  destruct (bool_decide (length path = 0%nat)); by eexists _, _.
Qed.

Lemma address_of_family (master key : HDKey) (path : list Z) (c : candidate) :
  derive_path master path = Ok key -> in_family path c ->
  address_of master c =
    (k1 ← match cand_account c with
          | None => Ok key
          | Some i => derive_child key (Z.lor 0x80000000 i)
          end;
     k2 ← derive_child k1 (cand_change c);
     derive_child k2 (cand_index c)) ≫= fun key' => Ok (get_address key').
Proof.
  intros Hkey [Hpath Hacc]. unfold address_of, derivation.
  rewrite Hpath, derive_path_app, Hkey. simpl mbind at 2.
  destruct (cand_account c) as [i|].
  - rewrite Hacc. simpl.
    destruct (derive_child key (hardened i)) as [k1|]; [|done]. simpl.
    destruct (derive_child k1 (cand_change c)) as [k2|]; [|done]. simpl.
    by destruct (derive_child k2 (cand_index c)).
  - simpl.
    destruct (derive_child key (cand_change c)) as [k2|]; [|done]. simpl.
    by destruct (derive_child k2 (cand_index c)).
Qed.

Lemma address_of_throw (master : HDKey) (path : list Z) (c : candidate) (e : exn) :
  derive_path master path = Throw e -> in_family path c ->
  address_of master c = Throw e.
Proof.
  intros Hkey [Hpath _]. unfold address_of, derivation.
  by rewrite Hpath, derive_path_app, Hkey.
Qed.

Lemma examine_search (mnemonic : string) (target : list Z)
    (master key : HDKey) (path : list Z) (cs : list candidate) :
  derive_path master path = Ok key -> Forall (in_family path) cs ->
  for_each cs (examine mnemonic target key) = search mnemonic master target cs.
Proof.
  intros Hkey. induction 1 as [|c cs Hc _ IH]; [done|].
  cbn [for_each search].
  rewrite IH, (address_of_family master key path c Hkey Hc).
  unfold examine.
  destruct (k1 ← match cand_account c with
                 | None => Ok key
                 | Some i => derive_child key (Z.lor 0x80000000 i)
                 end;
            k2 ← derive_child k1 (cand_change c);
            derive_child k2 (cand_index c)) as [key'|e]; [|done].
  rewrite lift_Ok_bind, result_bind_Ok.
  destruct (bool_decide (get_address key' = target)).
  - unfold_M. by rewrite !app_nil_r.
  - unfold_M. by destruct (search mnemonic master target cs) as [log [[b|]|e]].
Qed.

Lemma search_app (mnemonic : string) (target : list Z) (master : HDKey)
    (cs1 cs2 : list candidate) :
  search mnemonic master target (cs1 ++ cs2) =
  search mnemonic master target cs1 ≫= fun r =>
    and_then r (search mnemonic master target cs2).
Proof.
  induction cs1 as [|c cs1 IH]; simpl.
  - unfold_M. by destruct (search mnemonic master target cs2).
  - destruct (address_of master c) as [a|e]; [|done].
    destruct (bool_decide (a = target)); [unfold_M; by rewrite app_nil_r|].
    rewrite IH. unfold_M.
    destruct (search mnemonic master target cs1) as [log [[b|]|e]]; try done.
    by destruct (search mnemonic master target cs2).
Qed.

Lemma paths_search (mnemonic : string) (target : list Z) (master : HDKey)
    (ps : list (list Z)) :
  for_each ps (fun path =>
    key ← lift (derive_path master path);
    for_each (family_of path) (examine mnemonic target key))
  = search mnemonic master target (ps ≫= family_of).
Proof.
  induction ps as [|path ps IH]; [done|].
  change ((path :: ps) ≫= family_of) with (family_of path ++ (ps ≫= family_of)).
  rewrite search_app. cbn [for_each]. rewrite IH.
  destruct (derive_path master path) as [key|e] eqn:Hkey.
  - rewrite lift_Ok_bind.
    rewrite (examine_search _ _ master key path _ Hkey (family_of_in path)).
    unfold_M.
    by destruct (search mnemonic master target (family_of path))
      as [log [[b|]|e]].
  - destruct (family_of_cons path) as (c & cs & Hfam).
    pose proof (family_of_in path) as Hin. rewrite Hfam in Hin |- *.
    inversion Hin as [|? ? Hc _]; subst.
    simpl. by rewrite (address_of_throw master path c e Hkey Hc).
Qed.

(** The candidates of the loops are those of the specification. *)
Lemma candidates_paths : paths ≫= family_of = candidates.
Proof. vm_compute. reflexivity. Qed.

Example candidates_order :
  candidates !! 0%nat = Some (mkCandidate [hardened 44; hardened 0] (Some 0) 0 0) /\
  candidates !! 1%nat = Some (mkCandidate [hardened 44; hardened 0] (Some 0) 0 1) /\
  candidates !! 20%nat = Some (mkCandidate [hardened 44; hardened 0] (Some 0) 1 0) /\
  candidates !! 40%nat = Some (mkCandidate [hardened 44; hardened 0] (Some 1) 0 0) /\
  candidates !! 800%nat = Some (mkCandidate [hardened 49; hardened 0] (Some 0) 0 0) /\
  candidates !! 1600%nat = Some (mkCandidate [hardened 84; hardened 0] (Some 0) 0 0) /\
  candidates !! 2400%nat = Some (mkCandidate [] None 0 0) /\
  candidates !! 2439%nat = Some (mkCandidate [] None 1 19) /\
  candidates !! 2440%nat = None /\
  derivation (mkCandidate [hardened 44; hardened 0] (Some 3) 1 7)
    = [2147483692; 2147483648; 2147483651; 1; 7] /\
  derivation (mkCandidate [] None 1 7) = [1; 7].
Proof. vm_compute. done. Qed.

(** [check_seed_phrase] is the linear search over [candidates], also in
    the runs that end with an exception. *)
Lemma check_seed_phrase_refines (mnemonic : string) (target : list Z) :
  check_seed_phrase mnemonic target =
  match from_seed (seed_from_phrase mnemonic) with
  | Throw e => ([SeedDerived], Throw e)
  | Ok master =>
      let '(log, r) := search mnemonic master target candidates in
      (SeedDerived :: log, found r)
  end.
Proof.
  unfold check_seed_phrase. rewrite tell_bind. cbv beta.
  destruct (from_seed (seed_from_phrase mnemonic)) as [master|e]; [|done].
  rewrite lift_Ok_bind.
  rewrite (for_each_ext paths _ (fun path =>
    key ← lift (derive_path master path);
    for_each (family_of path) (examine mnemonic target key))).
  - rewrite paths_search, candidates_paths. unfold_M.
    by destruct (search mnemonic master target candidates) as [log [[b|]|e]];
      simpl; rewrite ?app_nil_r.
  - intros path _.
    destruct (derive_path master path) as [key|e]; [|done].
    rewrite !lift_Ok_bind. cbv zeta. unfold family_of.
    rewrite for_range_seqZ, for_each_bind. apply for_each_ext. intros i _.
    rewrite for_range_seqZ, for_each_bind. apply for_each_ext. intros j _.
    rewrite for_range_seqZ, for_each_fmap. apply for_each_ext. intros k _.
    unfold examine. cbn [cand_path cand_account cand_change cand_index].
    rewrite <- report_print.
    by destruct (bool_decide (length path = 0%nat)).
Qed.



(** The candidates compared when nothing throws: those up to the first
    match, or all of them. *)
Lemma search_find (mnemonic : string) (master : HDKey) (target : list Z)
    (cs : list candidate) :
  match list_find (fun c => matches master target c = true) cs with
  | Some (pos, c) =>
      forallb (fun c => is_ok (address_of master c)) (take pos cs) = true ->
      search mnemonic master target cs =
        ((Examined <$> take (S pos) cs) ++ report mnemonic c, Ok (Some true))
  | None =>
      forallb (fun c => is_ok (address_of master c)) cs = true ->
      search mnemonic master target cs = (Examined <$> cs, Ok None)
  end.
Proof.
  induction cs as [|c cs IH]; [done|].
  cbn [list_find search].
  destruct (decide (matches master target c = true)) as [Hm|Hm].
  - unfold matches in Hm.
    destruct (address_of master c) as [a|e]; [|done]. by rewrite Hm.
  - destruct (address_of master c) as [a|e] eqn:Ea.
    + assert (bool_decide (a = target) = false) as ->.
      { unfold matches in Hm. rewrite Ea in Hm.
        by destruct (bool_decide (a = target)). }
      destruct (list_find _ cs) as [[pos c']|]; simpl;
        rewrite Ea; simpl; intros H; by rewrite (IH H).
    + destruct (list_find _ cs) as [[pos c']|]; simpl; by rewrite Ea.
Qed.

(** C1. The search goes through [candidates], which lists the families
    44'/0', 49'/0', 84'/0' and the legacy one in this order, each by
    account (0..19, hardened; none for the legacy family), then change
    (0..1), then address index (0..19): 2440 candidates. When the master
    node exists and every candidate before the first match can be derived,
    the search compares exactly the candidates up to the first one whose
    address is the target, reports it and returns [true]; when no
    candidate matches and all can be derived, it compares all 2440 and
    returns [false]. ([check_seed_phrase_refines] covers the runs in which
    a derivation throws.) *)
Theorem check_seed_phrase_first_match
    (mnemonic : string) (target_address : list Z) (master : HDKey) :
  from_seed (seed_from_phrase mnemonic) = Ok master ->
  length candidates = 2440%nat /\
  match list_find (fun c => matches master target_address c = true)
                  candidates with
  | Some (pos, c) =>
      address_of master c = Ok target_address /\
      (forallb (fun c => is_ok (address_of master c)) (take pos candidates)
         = true ->
       check_seed_phrase mnemonic target_address =
         (SeedDerived :: (Examined <$> take (S pos) candidates)
            ++ report mnemonic c, Ok true))
  | None =>
      forallb (fun c => is_ok (address_of master c)) candidates = true ->
      check_seed_phrase mnemonic target_address =
        (SeedDerived :: (Examined <$> candidates), Ok false)
  end.
Proof.
  intros Hmaster. split; [done|].
  rewrite check_seed_phrase_refines, Hmaster.
  pose proof (search_find mnemonic master target_address candidates) as H.
  destruct (list_find _ candidates) as [[pos c]|] eqn:Ef.
  - split.
    + apply list_find_Some in Ef as (_ & Hm & _). unfold matches in Hm.
      destruct (address_of master c) as [a|]; [|done].
      by apply bool_decide_eq_true in Hm as ->.
    + intros Hok. by rewrite (H Hok).
  - intros Hok. by rewrite (H Hok).
Qed.

(** *** main *)

(** C6, as the program has it. When no context can be created the
    program writes a message to the error stream and returns 1; after a
    search that returns, it returns 0 for a match and 1 for none. The
    code for a failed setup is the code for no match. *)
Theorem exit_status (mnemonic target : string) :
  run false mnemonic target =
    ([Cerr (Str "Failed to create secp256k1 context"); Cerr Endl], Exit 1) /\
  forall target_bytes log found,
    decode_base58 target = Ok target_bytes ->
    target_bytes !! 0%nat = Some 0 ->
    check_seed_phrase mnemonic target_bytes = (log, Ok found) ->
    run true mnemonic target = (log, Exit (if found then 0 else 1)).
Proof.
  split; [done|]. intros target_bytes log found Hd Hv Hc.
  unfold run. simpl. by rewrite Hd, bool_decide_eq_true_2, Hc.
Qed.

(** C10. A target that decodes to an address whose first byte is not
    zero stops the program at [assert(target_bytes[0] == 0)]: no seed has
    been derived and no candidate compared. A run in which a seed is
    derived is a run on a target that decodes to 25 bytes, the first of
    them zero. *)
Theorem version_byte_asserted (mnemonic target : string) :
  (forall target_bytes,
     decode_base58 target = Ok target_bytes ->
     target_bytes !! 0%nat <> Some 0 ->
     length target_bytes = 25%nat /\
     run true mnemonic target =
       ([], Aborted (assertion "target_bytes[0] == 0"))) /\
  (forall ctx_created,
     SeedDerived ∈ fst (run ctx_created mnemonic target) ->
     exists target_bytes,
       decode_base58 target = Ok target_bytes /\
       length target_bytes = 25%nat /\
       target_bytes !! 0%nat = Some 0) /\
  (forall ctx_created,
     examined (fst (run ctx_created mnemonic target)) <> [] ->
     SeedDerived ∈ fst (run ctx_created mnemonic target)).
Proof.
  split; [|split].
  - intros target_bytes Hd Hv. split; [by eapply decode_base58_length|].
    unfold run. simpl. by rewrite Hd, bool_decide_eq_false_2.
  - intros [|]; unfold run; simpl.
    + destruct (decode_base58 target) as [target_bytes|e] eqn:Hd;
        [|by intros ?%elem_of_nil].
      destruct (bool_decide (target_bytes !! 0%nat = Some 0)) eqn:Hv;
        [|by intros ?%elem_of_nil].
      intros _. exists target_bytes. split; [done|].
      split; [by eapply decode_base58_length|].
      by apply bool_decide_eq_true in Hv.
    + intros H. apply elem_of_cons in H as [H|H]; [done|].
      apply elem_of_cons in H as [H|H]; [done|]. by apply elem_of_nil in H.
  - intros [|]; unfold run; simpl; [|done].
    destruct (decode_base58 target) as [target_bytes|e]; [|done].
    destruct (bool_decide (target_bytes !! 0%nat = Some 0)); [|done].
    intros _. rewrite check_seed_phrase_refines.
    destruct (from_seed _) as [master|e]; [|simpl; by left].
    destruct (search _ _ _ _) as [log r].
    destruct (found r); simpl; by left.
Qed.

End SearchFacts.

(** ** Running the program on the stand-in libraries *)

(** *** The stand-ins satisfy the contracts *)

Lemma toy_verify_spec (seckey : list Z) :
  Toy.seckey_verify seckey = true <-> 0 < be_val seckey < curve_order.
Proof.
  unfold Toy.seckey_verify. rewrite andb_true_iff, Z.ltb_lt, Z.ltb_lt. done.
Qed.

Lemma toy_pubkey_create_spec (seckey : list Z) :
  Toy.pubkey_create seckey = None <-> Toy.seckey_verify seckey = false.
Proof. unfold Toy.pubkey_create. by destruct (Toy.seckey_verify seckey). Qed.

Lemma toy_tweak_add_None (seckey tweak : list Z) :
  Toy.seckey_tweak_add seckey tweak = None <->
  (Toy.seckey_verify seckey = false \/ curve_order <= be_val tweak \/
   (be_val seckey + be_val tweak) mod curve_order = 0).
Proof.
  unfold Toy.seckey_tweak_add.
  destruct (Toy.seckey_verify seckey); simpl; [|by intuition].
  destruct (Z.ltb_spec (be_val tweak) curve_order); simpl; [|by intuition lia].
  destruct (Z.eqb_spec ((be_val seckey + be_val tweak) mod curve_order) 0);
    simpl; [by intuition | intuition (try lia; try done)].
Qed.

Lemma toy_tweak_add_Some (seckey tweak seckey' : list Z) :
  Toy.seckey_tweak_add seckey tweak = Some seckey' ->
  Toy.seckey_verify seckey' = true /\
  be_val seckey' = (be_val seckey + be_val tweak) mod curve_order.
Proof.
  unfold Toy.seckey_tweak_add.
  destruct (Toy.seckey_verify seckey); simpl; [|done].
  destruct (Z.ltb_spec (be_val tweak) curve_order); simpl; [|done].
  destruct (Z.eqb_spec ((be_val seckey + be_val tweak) mod curve_order) 0);
    simpl; [done|].
  intros [= <-].
  pose proof (Z.mod_pos_bound (be_val seckey + be_val tweak) curve_order
                ltac:(done)) as Hm.
  assert (curve_order < 256 ^ Z.of_nat 32) as Hn by done.
  rewrite toy_verify_spec, be_val_be_bytes, Z.mod_small by lia.
  split; [lia | done].
Qed.

#[refine] Instance toy_digests : Digests := {|
  HMAC_SHA512 := Toy.hmac;
  SHA256 := Toy.hash 32;
  RIPEMD160 := Toy.hash 20;
  PKCS5_PBKDF2_HMAC_SHA512 := Toy.pbkdf2;
|}.
Proof.
  - intros. unfold Toy.hmac. rewrite length_app. unfold Toy.digest. by rewrite !length_be_bytes.
  - intros; apply length_le_bytes.
  - intros; apply length_le_bytes.
Defined.

Instance toy_secp : Secp256k1 := {|
  secp256k1_pubkey := Z;
  secp256k1_ec_seckey_verify := Toy.seckey_verify;
  secp256k1_ec_pubkey_create := Toy.pubkey_create;
  secp256k1_ec_pubkey_serialize := Toy.pubkey_serialize;
  secp256k1_ec_seckey_tweak_add := Toy.seckey_tweak_add;
  seckey_verify_spec := toy_verify_spec;
  pubkey_create_spec := toy_pubkey_create_spec;
  pubkey_serialize_length := fun pubkey => f_equal S (length_be_bytes 32 pubkey);
  seckey_tweak_add_None := toy_tweak_add_None;
  seckey_tweak_add_Some := toy_tweak_add_Some;
|}.

(** *** Sample runs *)

(** The master node of the mnemonic "abc" and the address of the third
    candidate under it. *)
Definition abc_master : HDKey :=
  Eval vm_compute in
    match from_seed (seed_from_phrase "abc") with
    | Ok key => key
    | Throw _ => mkHDKey [] [] []
    end.

Definition abc_third : candidate :=
  mkCandidate [hardened 44; hardened 0] (Some 0) 0 2.

Definition abc_target : list Z :=
  Eval vm_compute in
    match address_of abc_master abc_third with
    | Ok a => a
    | Throw _ => []
    end.

(** The address searched for by [main], as the program decodes it. *)
Definition wanted_address : list Z :=
  [0; 216; 219; 161; 255; 225; 101; 57; 8; 142; 152; 30; 198; 76; 41; 234;
   199; 42; 114; 58; 243; 1; 115; 210; 141].

Example decode_target_literal : decode_base58 target_literal = Ok wanted_address.
Proof. vm_compute. reflexivity. Qed.

Lemma decode_encode_25_witness :
  decode_base58 (encode_base58 wanted_address) = Ok wanted_address.
Proof.
  apply decode_encode_25; [reflexivity|].
  apply (bool_decide_unpack _). vm_compute. exact I.
Defined.

Lemma encode_leading_ones_witness :
  leading_ones (list_ascii_of_string (encode_base58 [0; 0; 0; 7; 0; 255]))
  = 3%nat.
Proof.
  apply (encode_leading_ones [0; 0; 0; 7; 0; 255]).
  apply (bool_decide_unpack _). vm_compute. exact I.
Defined.

Lemma derive_child_spec_witness :
  0 <= hardened 44 < 2 ^ 32 /\
  (derive_child abc_master (hardened 44) = Throw InvalidChildKey <->
   secp256k1_ec_seckey_tweak_add (private_key abc_master)
     (take 32 (HMAC_SHA512 (chain_code abc_master)
                 (([0] ++ private_key abc_master) ++ be_bytes 4 (hardened 44))))
   = None).
Proof.
  assert (0 <= hardened 44 < 2 ^ 32) as H
    by (split; [vm_compute; discriminate | reflexivity]).
  split; [exact H|].
  exact (proj1 (proj2 (proj2 (proj2 (proj2 (proj2 (proj2
           (derive_child_spec abc_master (hardened 44) H)))))))).
Defined.

Lemma constructed_node_inv_witness : node_inv abc_master.
Proof.
  apply constructed_node_inv.
  apply (constructed_master (seed_from_phrase "abc")).
  vm_compute. reflexivity.
Defined.

Lemma check_seed_phrase_first_match_witness :
  from_seed (seed_from_phrase "abc") = Ok abc_master /\
  address_of abc_master abc_third = Ok abc_target /\
  check_seed_phrase "abc" abc_target =
    (SeedDerived :: (Examined <$> take 3 candidates)
       ++ report "abc" abc_third, Ok true).
Proof.
  assert (from_seed (seed_from_phrase "abc") = Ok abc_master) as Hm
    by (vm_compute; reflexivity).
  split; [exact Hm|].
  destruct (check_seed_phrase_first_match "abc" abc_target abc_master Hm)
    as [_ H].
  assert (list_find (fun c => matches abc_master abc_target c = true)
                    candidates = Some (2%nat, abc_third)) as Hf
    by (vm_compute; reflexivity).
  rewrite Hf in H. destruct H as [Ha H]. split; [exact Ha|].
  apply H. vm_compute. reflexivity.
Defined.

Lemma exit_status_witness :
  decode_base58 "1EFWQARzi9mQEMLkUjRgz2thuhxEaEjuuh" = Ok abc_target /\
  abc_target !! 0%nat = Some 0 /\
  run true "abc" "1EFWQARzi9mQEMLkUjRgz2thuhxEaEjuuh" =
    (SeedDerived :: (Examined <$> take 3 candidates)
       ++ report "abc" abc_third, Exit 0).
Proof.
  assert (decode_base58 "1EFWQARzi9mQEMLkUjRgz2thuhxEaEjuuh" = Ok abc_target)
    as Hd by (vm_compute; reflexivity).
  split; [exact Hd|]. split; [reflexivity|].
  apply (proj2 (exit_status "abc" "1EFWQARzi9mQEMLkUjRgz2thuhxEaEjuuh")
           abc_target _ true Hd); [reflexivity|].
  vm_compute. reflexivity.
Defined.

Lemma version_byte_asserted_witness :
  decode_base58 "3J98t1WpEZ73CNmQviecrnyiWrnqRhWNLy" =
    Ok [5; 180; 114; 162; 102; 208; 189; 137; 193; 55; 6; 164; 19; 44; 207;
        177; 111; 124; 59; 159; 203; 129; 252; 252; 2] /\
  run true mnemonic_literal "3J98t1WpEZ73CNmQviecrnyiWrnqRhWNLy" =
    ([], Aborted (assertion "target_bytes[0] == 0")).
Proof.
  assert (decode_base58 "3J98t1WpEZ73CNmQviecrnyiWrnqRhWNLy" =
    Ok [5; 180; 114; 162; 102; 208; 189; 137; 193; 55; 6; 164; 19; 44; 207;
        177; 111; 124; 59; 159; 203; 129; 252; 252; 2]) as Hd
    by (vm_compute; reflexivity).
  split; [exact Hd|].
  apply (proj1 (version_byte_asserted mnemonic_literal _) _ Hd). discriminate.
Defined.

(** C6, as stated, fails: run on the stand-in libraries, the program
    compares all 2440 candidates, finds no match and returns 1, and 1 is
    also what it returns when no context can be created. *)
Lemma exit_codes_coincide :
  snd (main true) = Exit 1 /\
  examined (fst (main true)) = candidates /\
  snd (main false) = Exit 1.
Proof. vm_compute. done. Qed.

(** * Further properties *)

(** ** decode_base58 and encode_base58 in general *)

(** *** The copy loops of decode_base58, in general *)

Lemma put_zeros_zeros (input : list ascii) (n : nat) : forall pos,
  (pos <= n)%nat ->
  put_zeros input (replicate n 0) pos =
  (replicate n 0, Nat.min n (pos + leading_ones input)).
Proof.
  induction input as [|c input IH]; intros pos Hpos; cbn [put_zeros leading_ones].
  - f_equal. lia.
  - rewrite length_replicate.
    destruct (Ascii.eqb c "1"); simpl andb; [|f_equal; lia].
    destruct (Nat.ltb_spec pos n) as [Hlt|Hge]; [|f_equal; lia].
    rewrite list_insert_id by (by apply lookup_replicate_2).
    rewrite IH by lia. f_equal. lia.
Qed.

Lemma put_bytes_spec (rbn : list Z) : forall pre suf,
  put_bytes rbn (pre ++ suf) (length pre) =
  (pre ++ take (length suf) ((fun x => x mod 2 ^ 8) <$> rbn)
       ++ drop (length rbn) suf,
   (length pre + Nat.min (length rbn) (length suf))%nat).
Proof.
  induction rbn as [|x rbn IH]; intros pre suf.
  - simpl. by rewrite take_nil, Nat.add_0_r.
  - cbn [put_bytes]. destruct suf as [|y suf].
    + rewrite app_nil_r, Nat.ltb_irrefl. simpl. by rewrite app_nil_r, Nat.add_0_r.
    + assert (Nat.ltb (length pre) (length (pre ++ y :: suf)) = true) as ->.
      { apply Nat.ltb_lt. rewrite length_app. simpl. lia. }
      replace (<[length pre:=x mod 2 ^ 8]> (pre ++ y :: suf))
        with ((pre ++ [x mod 2 ^ 8]) ++ suf).
      2:{ rewrite <- (Nat.add_0_r (length pre)), insert_app_r. simpl.
          by rewrite <- app_assoc. }
      replace (S (length pre)) with (length (pre ++ [x mod 2 ^ 8]))
        by (rewrite length_app; simpl; lia).
      rewrite IH, length_app, <- app_assoc. simpl. f_equal. lia.
Qed.

(** decode_base58 in one formula: the bytes are the leading zeros followed
    by the number, most significant byte first; fewer than 25 is an
    error, and of more than 25 only the first 25 are returned. *)
Lemma decode_base58_formula (input : string) :
  decode_base58 input =
  bn ← dec_digits [] (list_ascii_of_string input);
  let full := replicate (leading_ones (list_ascii_of_string input)) 0
              ++ ((fun x => x mod 2 ^ 8) <$> reverse bn) in
  if bool_decide (25 <= length full)%nat then Ok (take 25 full)
  else Throw InvalidLength.
Proof.
  unfold decode_base58.
  destruct (dec_digits [] (list_ascii_of_string input)) as [bn|e]; [|done].
  rewrite !result_bind_Ok. cbv zeta.
  rewrite put_zeros_zeros by lia. rewrite Nat.add_0_l.
  generalize (leading_ones (list_ascii_of_string input)). intros z.
  remember (Nat.min 25 z) as p eqn:Hp.
  remember ((fun x => x mod 2 ^ 8) <$> reverse bn) as rb eqn:Hrb.
  assert (length rb = length (reverse bn)) as Hlen
    by (subst rb; apply length_fmap).
  replace (replicate 25 0) with (replicate p 0 ++ replicate (25 - p) 0)
    by (rewrite <- replicate_add; f_equal; lia).
  pose proof (put_bytes_spec (reverse bn) (replicate p 0) (replicate (25 - p) 0)) as H.
  rewrite !length_replicate in H. rewrite H, <- Hrb. clear H Hrb.
  rewrite !length_app, length_take, length_drop, !length_replicate.
  rewrite <- Hlen.
  destruct (decide (25 <= z + length rb)%nat) as [Hge|Hlt].
  - rewrite bool_decide_eq_false_2 by lia.
    rewrite bool_decide_eq_true_2 by lia. f_equal.
    rewrite drop_replicate.
    replace (25 - p - length rb)%nat with 0%nat by lia. simpl replicate.
    rewrite app_nil_r.
    destruct (decide (25 <= z)%nat) as [Hz|Hz].
    + replace p with 25%nat by lia. simpl take at 1. rewrite app_nil_r.
      rewrite take_app_le by (rewrite length_replicate; lia).
      by rewrite take_replicate, Nat.min_l by lia.
    + replace p with z by lia.
      rewrite take_app_ge by (rewrite length_replicate; lia).
      by rewrite length_replicate.
  - rewrite bool_decide_eq_true_2 by lia.
    by rewrite bool_decide_eq_false_2 by lia.
Qed.

Lemma string_length_list (s : string) :
  String.length s = length (list_ascii_of_string s).
Proof. induction s as [|a s IH]; [done|]. simpl. by rewrite IH. Qed.

Lemma fmap_mod_bytes (bs : list Z) :
  is_bytes bs -> (fun x => x mod 2 ^ 8) <$> bs = bs.
Proof.
  induction 1 as [|x bs Hx _ IH]; [done|].
  cbn [fmap list_fmap]. change (list_fmap _ _ ?f bs) with (f <$> bs).
  rewrite IH. f_equal. apply Z.mod_small. change (2 ^ 8) with 256. lia.
Qed.

Lemma is_bytes_mod (l : list Z) : is_bytes ((fun x => x mod 2 ^ 8) <$> l).
Proof.
  apply Forall_fmap, Forall_forall. intros x _. simpl.
  change (2 ^ 8) with 256. apply Z.mod_pos_bound. lia.
Qed.

Lemma leading_ones_encode_chars (B : list Z) :
  is_bytes B -> leading_ones (encode_base58_chars B) = count_zeros B.
Proof.
  intros HB. unfold encode_base58_chars.
  rewrite leading_ones_replicate, leading_ones_digits; [lia|].
  by apply enc_digits_spec, is_bytes_drop.
Qed.

(** X1. Decoding the encoding of a byte array of any length: with at
    least 25 bytes the result is the first 25 of them, with fewer the
    length error. *)
Theorem decode_encode_any (B : list Z) :
  is_bytes B ->
  decode_base58 (encode_base58 B) =
  if bool_decide (25 <= length B)%nat then Ok (take 25 B)
  else Throw InvalidLength.
Proof.
  intros HB. rewrite decode_base58_formula. unfold encode_base58.
  rewrite list_ascii_of_string_of_list_ascii, (dec_digits_encode B HB).
  rewrite result_bind_Ok. cbv zeta.
  rewrite (leading_ones_encode_chars B HB), reverse_involutive.
  rewrite fmap_mod_bytes by (by apply is_bytes_drop).
  by rewrite <- (proj1 (count_zeros_split B)).
Qed.

Lemma dec_digits_throw (input : list ascii) : forall bn e,
  dec_digits bn input = Throw e ->
  e = InvalidBase58Character /\
  exists c, c ∈ input /\ strchr BASE58_CHARS c = None.
Proof.
  induction input as [|a input IH]; intros bn e H; [done|].
  cbn [dec_digits] in H. unfold dec_char in H.
  destruct (strchr BASE58_CHARS a) as [off|] eqn:Ea.
  - destruct (dec_mul bn (off mod 2 ^ 16)) as [bn' digit].
    rewrite result_bind_Ok in H. destruct (IH _ _ H) as (-> & c & Hc & Hn).
    split; [done|]. exists c. split; [by right | done].
  - injection H as <-. split; [done|]. exists a. split; [by left | done].
Qed.

(** X2. Whatever the input, a successful decode returns exactly 25
    values, each of them a byte, and a failed one throws the character
    error or the length error and nothing else. *)
Theorem decode_base58_outcome (input : string) :
  match decode_base58 input with
  | Ok bytes => length bytes = 25%nat /\ is_bytes bytes
  | Throw e => e = InvalidBase58Character \/ e = InvalidLength
  end.
Proof.
  rewrite decode_base58_formula.
  destruct (dec_digits [] (list_ascii_of_string input)) as [bn|e] eqn:Ed.
  - rewrite result_bind_Ok. cbv zeta. case_bool_decide as Hlen; [|by right].
    split.
    + rewrite length_take. lia.
    + apply Forall_take, Forall_app. split; [|apply is_bytes_mod].
      apply Forall_replicate. lia.
  - left. by apply dec_digits_throw in Ed as [-> _].
Qed.

Lemma strchr_from_None_inv (s : string) (c : ascii) : forall off,
  strchr_from off s c = None ->
  c <> Ascii.zero /\ c ∉ list_ascii_of_string s.
Proof.
  induction s as [|a s IH]; intros off H; simpl in H.
  - destruct (Ascii.eqb_spec c Ascii.zero); [done|].
    split; [done | apply not_elem_of_nil].
  - destruct (Ascii.eqb_spec a c) as [|Hne]; [done|].
    destruct (IH _ H) as [Hz Hc]. split; [done|].
    simpl. apply not_elem_of_cons. split; [congruence | done].
Qed.

(** X3. The character error is thrown exactly for the strings that hold
    a character other than NUL outside the alphabet; it takes precedence
    over the length error. *)
Theorem decode_base58_character_error (input : string) :
  decode_base58 input = Throw InvalidBase58Character <->
  exists c, c ∈ list_ascii_of_string input /\ c <> Ascii.zero /\
            c ∉ list_ascii_of_string BASE58_CHARS.
Proof.
  split.
  - rewrite decode_base58_formula.
    destruct (dec_digits [] (list_ascii_of_string input)) as [bn|e] eqn:Ed.
    + rewrite result_bind_Ok. cbv zeta. by case_bool_decide.
    + intros _. apply dec_digits_throw in Ed as (_ & c & Hc & Hn).
      exists c. split; [done|]. by apply strchr_from_None_inv in Hn.
  - intros (c & Hc & Hz & Hn). unfold decode_base58.
    rewrite (dec_digits_rejects _ c); [done | done |].
    by apply strchr_from_None.
Qed.

Lemma dec_mul_length (bn : list Z) : forall digit,
  length (fst (dec_mul bn digit)) = length bn.
Proof.
  induction bn as [|x bn IH]; intros digit; [done|].
  cbn [dec_mul]. specialize (IH (Z.shiftr ((x * 58 + digit) mod 2 ^ 32) 8 mod 2 ^ 16)).
  destruct (dec_mul bn _) as [rest' digit']. simpl in *. by rewrite IH.
Qed.

Lemma dec_digits_length (input : list ascii) : forall bn bn',
  dec_digits bn input = Ok bn' ->
  (length bn' <= length bn + length input)%nat.
Proof.
  induction input as [|a input IH]; intros bn bn' H.
  - injection H as <-. simpl. lia.
  - cbn [dec_digits] in H. unfold dec_char in H.
    destruct (strchr BASE58_CHARS a) as [off|]; [|done].
    pose proof (dec_mul_length bn (off mod 2 ^ 16)) as Hl.
    destruct (dec_mul bn (off mod 2 ^ 16)) as [bn1 digit]. simpl in Hl.
    rewrite result_bind_Ok in H. apply IH in H.
    destruct (0 <? digit); rewrite ?length_app in H; simpl in *; lia.
Qed.

Lemma dec_digits_ones (z : nat) (rest : list ascii) :
  dec_digits [] (replicate z "1"%char ++ rest) = dec_digits [] rest.
Proof. induction z as [|z IH]; [done|]. exact IH. Qed.

Lemma leading_ones_split (s : list ascii) :
  s = replicate (leading_ones s) "1"%char ++ drop (leading_ones s) s.
Proof.
  induction s as [|c s IH]; [done|]. simpl.
  destruct (Ascii.eqb_spec c "1") as [->|]; [|done].
  simpl. by f_equal.
Qed.

Lemma dec_digits_room (input : list ascii) (bn : list Z) :
  dec_digits [] input = Ok bn ->
  (leading_ones input + length bn <= length input)%nat.
Proof.
  intros H. rewrite (leading_ones_split input), dec_digits_ones in H.
  apply dec_digits_length in H. rewrite length_drop in H. simpl in H.
  assert (leading_ones input <= length input)%nat; [|lia].
  clear. induction input as [|c s IH]; simpl; [lia|].
  destruct (Ascii.eqb c "1"); lia.
Qed.

(** X4. No string of fewer than 25 characters decodes: each character
    yields at most one byte. *)
Theorem decode_base58_short (input : string) :
  (String.length input < 25)%nat ->
  decode_base58 input = Throw InvalidBase58Character \/
  decode_base58 input = Throw InvalidLength.
Proof.
  rewrite string_length_list. intros Hshort. rewrite decode_base58_formula.
  destruct (dec_digits [] (list_ascii_of_string input)) as [bn|e] eqn:Ed.
  - right. rewrite result_bind_Ok. cbv zeta.
    apply dec_digits_room in Ed.
    rewrite bool_decide_eq_false_2; [done|].
    rewrite length_app, length_replicate, length_fmap, length_reverse. lia.
  - left. by apply dec_digits_throw in Ed as [-> _].
Qed.

Lemma string_of_list_ascii_inj (l1 l2 : list ascii) :
  string_of_list_ascii l1 = string_of_list_ascii l2 -> l1 = l2.
Proof.
  intros H. apply (f_equal list_ascii_of_string) in H.
  by rewrite !list_ascii_of_string_of_list_ascii in H.
Qed.

(** X5. Two byte arrays with the same encoding are equal. *)
Theorem encode_base58_inj (B1 B2 : list Z) :
  is_bytes B1 -> is_bytes B2 ->
  encode_base58 B1 = encode_base58 B2 -> B1 = B2.
Proof.
  intros H1 H2 Heq. apply string_of_list_ascii_inj in Heq.
  pose proof (leading_ones_encode_chars B1 H1) as Hz1.
  pose proof (dec_digits_encode B1 H1) as Hd1.
  rewrite Heq in Hz1, Hd1.
  rewrite (leading_ones_encode_chars B2 H2) in Hz1.
  rewrite (dec_digits_encode B2 H2) in Hd1.
  assert (reverse (drop (count_zeros B2) B2) = reverse (drop (count_zeros B1) B1))
    as Hrev by congruence.
  apply (f_equal reverse) in Hrev. rewrite !reverse_involutive in Hrev.
  rewrite (proj1 (count_zeros_split B1)), (proj1 (count_zeros_split B2)).
  rewrite Hz1 in Hrev |- *. by rewrite Hrev.
Qed.

Lemma strchr_from_Some (s : string) (c : ascii) : forall off o,
  strchr_from off s c = Some o ->
  o < off + Z.of_nat (String.length s) ->
  c ∈ list_ascii_of_string s.
Proof.
  induction s as [|a s IH]; intros off o H Ho; simpl in *.
  - destruct (Ascii.eqb c Ascii.zero); [|done]. injection H as <-. lia.
  - destruct (Ascii.eqb_spec a c) as [->|]; [by left|].
    right. apply (IH (off + 1) o H). lia.
Qed.

Lemma char_at_alphabet (d : Z) :
  0 <= d < 58 -> char_at BASE58_CHARS d ∈ list_ascii_of_string BASE58_CHARS.
Proof.
  intros Hd. destruct (alphabet_digit d Hd) as [Hs _].
  apply (strchr_from_Some _ _ 0 d Hs). change (String.length BASE58_CHARS) with 58%nat. lia.
Qed.

Lemma horner_zeros_l (base : Z) (z : nat) (ds : list Z) :
  horner base 0 (replicate z 0 ++ ds) = horner base 0 ds.
Proof. by rewrite horner_app, horner_zeros. Qed.

Lemma be_val_horner (bs : list Z) : be_val bs = horner 256 0 bs.
Proof. done. Qed.

(** X6. The encoding is made of characters of the alphabet only (never
    NUL), and read as a number in base 58, most significant digit first,
    it is the number the bytes denote in base 256. *)
Theorem encode_base58_digits (B : list Z) :
  is_bytes B ->
  exists ds,
    list_ascii_of_string (encode_base58 B) = char_at BASE58_CHARS <$> ds /\
    digits_in 58 ds /\
    horner 58 0 ds = be_val B /\
    Forall (fun c => c ∈ list_ascii_of_string BASE58_CHARS)
           (list_ascii_of_string (encode_base58 B)).
Proof.
  intros HB.
  set (z := count_zeros B).
  destruct (enc_digits_spec (drop z B) (is_bytes_drop z B HB)) as [[Hd Hl] Hv].
  exists (replicate z 0 ++ reverse (enc_digits (drop z B))).
  assert (digits_in 58 (replicate z 0 ++ reverse (enc_digits (drop z B)))) as Hds.
  { apply Forall_app. split; [apply Forall_replicate; lia | by apply Forall_reverse]. }
  unfold encode_base58.
  rewrite list_ascii_of_string_of_list_ascii, encode_chars_digits. fold z.
  split; [done|]. split; [done|]. split.
  - assert (be_val B = be_val (drop z B)) as HvB.
    { rewrite (proj1 (count_zeros_split B)) at 1. fold z.
      by rewrite !be_val_horner, horner_zeros_l. }
    rewrite horner_zeros_l, horner_reverse, Hv, HvB. lia.
  - apply Forall_fmap. eapply Forall_impl; [exact Hds|].
    intros d Hd0. by apply char_at_alphabet.
Qed.

Lemma count_zeros_app_nonzero (z : nat) (rest : list Z) :
  head rest <> Some 0 -> count_zeros (replicate z 0 ++ rest) = z.
Proof.
  intros Hh. induction z as [|z IH]; simpl; [|by rewrite IH].
  destruct rest as [|x rest]; [done|]. destruct x; [|done|done].
  by destruct Hh.
Qed.

(** X7. Every string over the alphabet is the encoding of a byte array:
    the one with as many leading zero bytes as the string has leading
    '1's, followed by the big-endian bytes of its value. *)
Theorem encode_base58_onto (ds : list Z) :
  digits_in 58 ds ->
  exists B, is_bytes B /\
    encode_base58 B = string_of_list_ascii (char_at BASE58_CHARS <$> ds) /\
    be_val B = horner 58 0 ds /\ count_zeros B = count_zeros ds.
Proof.
  intros Hds. set (z := count_zeros ds).
  destruct (count_zeros_split ds) as [Hsplit Hhead]. fold z in Hsplit, Hhead.
  assert (digits_in 58 (drop z ds)) as Hrest by (by apply Forall_drop).
  destruct (dec_digits_spec (drop z ds) [] Hrest (canonical_nil 256))
    as (bn & _ & [Hbn Hlast] & Hval).
  simpl le_val in Hval.
  set (B := replicate z 0 ++ reverse bn).
  assert (is_bytes B) as HB.
  { apply Forall_app. split; [apply Forall_replicate; lia | by apply Forall_reverse]. }
  assert (count_zeros B = z) as Hz
    by (apply count_zeros_app_nonzero; by rewrite head_reverse).
  assert (drop z B = reverse bn) as Hdrop.
  { unfold B. rewrite drop_app_length'; [done | by rewrite length_replicate]. }
  exists B. split; [done|].
  destruct (enc_digits_spec (reverse bn) ltac:(by apply Forall_reverse))
    as [Hcan Hv].
  assert (enc_digits (reverse bn) = reverse (drop z ds)) as Henc.
  { apply (canonical_inj 58); [lia | done | |].
    - split; [by apply Forall_reverse | by rewrite last_reverse].
    - rewrite Hv, be_val_reverse, Hval.
      rewrite <- (reverse_involutive (drop z ds)) at 1.
      rewrite horner_reverse. lia. }
  split; [|split; [|done]].
  - unfold encode_base58. f_equal. rewrite encode_chars_digits, Hz, Hdrop, Henc.
    by rewrite reverse_involutive, <- Hsplit.
  - unfold B. rewrite be_val_horner, horner_zeros_l, <- be_val_horner.
    rewrite be_val_reverse, Hval.
    rewrite Hsplit at 2. by rewrite horner_zeros_l.
Qed.

(** X8. Zero bytes alone encode to as many characters '1'; the empty
    array encodes to the empty string. *)
Theorem encode_base58_zeros (n : nat) :
  encode_base58 (replicate n 0) = string_of_list_ascii (replicate n "1"%char).
Proof.
  unfold encode_base58, encode_base58_chars.
  assert (count_zeros (replicate n 0) = n) as ->.
  { rewrite <- (app_nil_r (replicate n 0)). by apply count_zeros_app_nonzero. }
  rewrite drop_ge by (by rewrite length_replicate).
  by rewrite app_nil_r.
Qed.

Lemma le_val_lt (base : Z) (ds : list Z) :
  1 < base -> digits_in base ds -> le_val base ds < base ^ Z.of_nat (length ds).
Proof.
  intros Hb. induction 1 as [|d ds Hd _ IH]; [done|].
  change (length (d :: ds)) with (S (length ds)).
  rewrite Nat2Z.inj_succ, Z.pow_succ_r by lia. simpl le_val. nia.
Qed.

Lemma canonical_ge (base : Z) (ds : list Z) :
  1 < base -> canonical base ds -> ds <> [] ->
  base ^ (Z.of_nat (length ds) - 1) <= le_val base ds.
Proof.
  intros Hb. induction ds as [|d ds IH]; intros Hc Hne; [done|].
  pose proof (canonical_tail base _ _ Hc) as Ht.
  destruct Hc as [Hd Hl]. inversion Hd as [|? ? Hd0 Hds]; subst.
  change (length (d :: ds)) with (S (length ds)). rewrite Nat2Z.inj_succ.
  replace (Z.succ (Z.of_nat (length ds)) - 1) with (Z.of_nat (length ds)) by lia.
  simpl le_val. destruct ds as [|e ds].
  - simpl in *. assert (d <> 0) by congruence. lia.
  - specialize (IH Ht ltac:(discriminate)).
    change (length (e :: ds)) with (S (length ds)) in *.
    rewrite Nat2Z.inj_succ in *.
    replace (Z.succ (Z.of_nat (length ds)) - 1) with (Z.of_nat (length ds)) in IH by lia.
    rewrite Z.pow_succ_r by lia. nia.
Qed.

(** 8 bytes fit in 11 base-58 digits. *)
Lemma pow256_le_pow58 (n : Z) : 0 <= n -> 256 ^ n <= 58 ^ (11 * n / 8 + 1).
Proof.
  intros Hn.
  pose proof (Z.div_mod n 8 ltac:(lia)) as Hdm.
  pose proof (Z.mod_pos_bound n 8 ltac:(lia)) as Hr.
  set (q := n / 8) in *. set (r := n mod 8) in *.
  assert (0 <= q) as Hq by (apply Z.div_pos; lia).
  assert (11 * n / 8 = 11 * q + 11 * r / 8) as ->.
  { rewrite Hdm. replace (11 * (8 * q + r)) with (11 * q * 8 + 11 * r) by ring.
    rewrite Z.div_add_l by lia. done. }
  assert (0 <= 11 * r / 8) as Hr' by (apply Z.div_pos; lia).
  rewrite Hdm, Z.pow_add_r, Z.pow_mul_r by lia.
  replace (11 * q + 11 * r / 8 + 1) with (11 * q + (11 * r / 8 + 1)) by ring.
  rewrite (Z.pow_add_r 58), (Z.pow_mul_r 58) by lia.
  apply Z.mul_le_mono_nonneg.
  - apply Z.pow_nonneg. vm_compute. discriminate.
  - apply Z.pow_le_mono_l. split; vm_compute; discriminate.
  - apply Z.pow_nonneg. lia.
  - assert (r = 0 \/ r = 1 \/ r = 2 \/ r = 3 \/ r = 4 \/ r = 5 \/ r = 6 \/ r = 7)
      as Hcases by lia.
    clearbody r. clear -Hcases.
    destruct Hcases as [->|[->|[->|[->|[->|[->|[->| ->]]]]]]];
      vm_compute; discriminate.
Qed.

(** X9. The encoding of [n] bytes has at least [n] characters and at
    most [n * 138 / 100 + 1], the capacity the encoder reserves for its
    digits. *)
Theorem encode_base58_length (B : list Z) :
  is_bytes B ->
  (length B <= String.length (encode_base58 B) <= length B * 138 / 100 + 1)%nat.
Proof.
  intros HB. rewrite string_length_list. unfold encode_base58.
  rewrite list_ascii_of_string_of_list_ascii. unfold encode_base58_chars.
  rewrite length_app, length_replicate, length_fmap, length_reverse.
  pose proof (count_zeros_le B) as Hz.
  destruct (count_zeros_split B) as [_ Hhead].
  pose proof (is_bytes_drop (count_zeros B) B HB) as Hrest.
  assert (length (drop (count_zeros B) B) = (length B - count_zeros B)%nat) as Hn
    by apply length_drop.
  generalize dependent (count_zeros B). intros z Hz Hhead.
  generalize dependent (drop z B). intros B' Hhead Hrest Hn.
  destruct (enc_digits_spec B' Hrest) as [Hcan Hv].
  assert (be_val B' = le_val 256 (reverse B')) as Hbe
    by (by rewrite <- be_val_reverse, reverse_involutive).
  rewrite Hbe in Hv. clear Hbe.
  assert (canonical 256 (reverse B')) as Hcan'.
  { split; [by apply Forall_reverse | by rewrite last_reverse]. }
  destruct (decide (B' = [])) as [->|Hne].
  - simpl in *. split; [lia|]. apply Nat.le_trans with (length B * 138 / 100)%nat; [|apply Nat.le_add_r].
    apply Nat.div_le_lower_bound; lia.
  - assert (reverse B' <> []) as Hne'.
    { intros H. apply (f_equal reverse) in H. by rewrite reverse_involutive in H. }
    pose proof (canonical_ge 256 _ ltac:(lia) Hcan' Hne') as Hlo.
    pose proof (le_val_lt 256 _ ltac:(lia) (proj1 Hcan')) as Hhi.
    rewrite length_reverse in Hlo, Hhi.
    assert (enc_digits B' <> []) as Hd.
    { intros H. rewrite H in Hv. simpl in Hv.
      pose proof (Z.pow_pos_nonneg 256 (Z.of_nat (length B') - 1) ltac:(lia)) as Hp.
      destruct B'; [done|]. simpl length in *. lia. }
    pose proof (canonical_ge 58 _ ltac:(lia) Hcan Hd) as Hlo58.
    pose proof (le_val_lt 58 _ ltac:(lia) (proj1 Hcan)) as Hhi58.
    rewrite Hv in Hlo58, Hhi58.
    remember (Z.of_nat (length (enc_digits B'))) as d eqn:Hdd.
    remember (Z.of_nat (length B')) as n' eqn:Hnn.
    assert (1 <= n') by (destruct B'; [done | simpl length in Hnn; lia]).
    assert (1 <= d) by (destruct (enc_digits B'); [done | simpl length in Hdd; lia]).
    assert (n' <= d) as Hlower.
    { assert (58 ^ (n' - 1) <= 256 ^ (n' - 1))
        by (apply Z.pow_le_mono_l; lia).
      assert (n' - 1 < d); [|lia].
      apply (Z.pow_lt_mono_r_iff 58); lia. }
    assert (d <= 11 * n' / 8 + 1) as Hupper.
    { pose proof (pow256_le_pow58 n' ltac:(lia)) as Hp.
      assert (0 <= 11 * n' / 8) by (apply Z.div_pos; lia).
      assert (d - 1 < 11 * n' / 8 + 1); [|lia].
      apply (Z.pow_lt_mono_r_iff 58); lia. }
    split; [lia|].
    apply Nat2Z.inj_le.
    rewrite Nat2Z.inj_add, Nat2Z.inj_add, Nat2Z.inj_div, Nat2Z.inj_mul.
    assert (Z.of_nat (length B) = Z.of_nat z + n') as -> by lia.
    rewrite <- Hdd. change (Z.of_nat 138) with 138. change (Z.of_nat 100) with 100.
    change (Z.of_nat 1) with 1.
    clear -Hupper H. 
    assert (0 <= Z.of_nat z) by lia. generalize dependent (Z.of_nat z). intros zz Hzz.
    Z.div_mod_to_equations. lia.
Qed.

(** ** Keys and derivation paths *)

Section MoreKeyFacts.

Context {digests : Digests} {secp : Secp256k1}.

(** X10. The constructor throws only [PubkeyCreateFailed], exactly for a
    scalar the library rejects; the assertion on [pubkey_len] never
    fails. *)
Theorem HDKey_new_outcome (private_key_ chain_code_ : list Z) :
  match HDKey_new private_key_ chain_code_ with
  | Ok key =>
      secp256k1_ec_seckey_verify private_key_ = true /\
      private_key key = private_key_ /\ chain_code key = chain_code_ /\
      length (public_key key) = 33%nat /\ node_inv key
  | Throw e =>
      e = PubkeyCreateFailed /\
      secp256k1_ec_seckey_verify private_key_ = false
  end.
Proof.
  destruct (secp256k1_ec_seckey_verify private_key_) eqn:Hv.
  - destruct (HDKey_new_valid private_key_ chain_code_ Hv)
      as (pubkey & Hp & ->).
    simpl. repeat (split; [done|]).
    split; [apply pubkey_serialize_length | by apply node_inv_intro].
  - unfold HDKey_new. apply pubkey_create_spec in Hv. by rewrite Hv.
Qed.

Lemma from_seed_cases (seed : list Z) :
  let I := HMAC_SHA512 (bytes_of_string "Bitcoin seed") seed in
  if secp256k1_ec_seckey_verify (take 32 I)
  then exists pubkey,
         secp256k1_ec_pubkey_create (take 32 I) = Some pubkey /\
         from_seed seed =
           Ok (mkHDKey (take 32 I) (drop 32 I)
                       (secp256k1_ec_pubkey_serialize pubkey))
  else from_seed seed = Throw InvalidMasterKey.
Proof.
  intros I. unfold from_seed, hmac_sha512. fold I.
  destruct (secp256k1_ec_seckey_verify (take 32 I)) eqn:Hv; [|done].
  destruct (HDKey_new_valid (take 32 I) (drop 32 I) Hv) as (pubkey & Hp & ->).
  by exists pubkey.
Qed.

(** X11. [from_seed] throws only [InvalidMasterKey], and does so exactly
    when the left half of the HMAC is not a valid scalar; otherwise the
    node holds the two halves, of 32 bytes each, and a 33-byte public
    key. *)
Theorem from_seed_outcome (seed : list Z) :
  let I := HMAC_SHA512 (bytes_of_string "Bitcoin seed") seed in
  match from_seed seed with
  | Ok key =>
      secp256k1_ec_seckey_verify (take 32 I) = true /\
      private_key key = take 32 I /\ chain_code key = drop 32 I /\
      length (private_key key) = 32%nat /\
      length (chain_code key) = 32%nat /\
      length (public_key key) = 33%nat /\
      node_inv key
  | Throw e =>
      e = InvalidMasterKey /\
      secp256k1_ec_seckey_verify (take 32 I) = false
  end.
Proof.
  intros I. pose proof (from_seed_cases seed) as H. cbv zeta in H. fold I in H.
  assert (length I = 64%nat) as HI by apply HMAC_SHA512_length.
  destruct (secp256k1_ec_seckey_verify (take 32 I)) eqn:Hv.
  - destruct H as (pubkey & Hp & ->). simpl.
    split; [done|]. split; [done|]. split; [done|].
    split; [by rewrite length_take, HI|].
    split; [by rewrite length_drop, HI|].
    split; [apply pubkey_serialize_length|]. by apply node_inv_intro.
  - by rewrite H.
Qed.

Lemma derive_child_cases (parent : HDKey) (index : Z) :
  match derive_child parent index with
  | Ok child => node_inv child /\ length (chain_code child) = 32%nat
  | Throw e => e = InvalidChildKey
  end.
Proof.
  pose proof (derive_child_tweak parent index) as H. cbv zeta in H.
  destruct (secp256k1_ec_seckey_tweak_add _ _) as [scalar|].
  - destruct H as (Hv & pubkey & Hp & ->). split; [by apply node_inv_intro|].
    simpl. by rewrite length_drop, HMAC_SHA512_length.
  - by rewrite H.
Qed.


Lemma derive_path_throw (path : list Z) : forall key e,
  derive_path key path = Throw e -> e = InvalidChildKey.
Proof.
  induction path as [|index path IH]; intros key e H; [done|].
  cbn [derive_path] in H. pose proof (derive_child_cases key index) as Hc.
  destruct (derive_child key index) as [child|e'].
  - rewrite result_bind_Ok in H. by apply (IH child).
  - injection H as <-. exact Hc.
Qed.

(** X13. A derivation along a non-empty path that succeeds ends in a
    node with the invariant and a 32-byte chain code; one that fails
    throws [InvalidChildKey], at the first step whose [derive_child]
    throws. *)
Theorem derive_path_outcome (key : HDKey) (path : list Z) :
  match derive_path key path with
  | Ok key' =>
      path <> [] -> node_inv key' /\ length (chain_code key') = 32%nat
  | Throw e =>
      e = InvalidChildKey /\
      exists pre index post parent,
        path = pre ++ index :: post /\
        derive_path key pre = Ok parent /\
        derive_child parent index = Throw InvalidChildKey
  end.
Proof.
  revert key. induction path as [|index path IH]; intros key; [done|].
  cbn [derive_path]. pose proof (derive_child_cases key index) as Hc.
  destruct (derive_child key index) as [child|e] eqn:Ed.
  - rewrite result_bind_Ok. specialize (IH child).
    destruct (derive_path child path) as [key'|e] eqn:Ep.
    + intros _. destruct path as [|i path]; [|by apply IH].
      injection Ep as <-. exact Hc.
    + destruct IH as (-> & pre & i & post & parent & -> & Hpre & Hd).
      split; [done|]. exists (index :: pre), i, post, parent.
      split; [done|]. split; [|done]. simpl. by rewrite Ed.
  - subst e. split; [done|]. by exists [], index, path, key.
Qed.

Lemma get_address_bytes (key : HDKey) :
  get_address key =
    [0] ++ RIPEMD160 (SHA256 (public_key key))
        ++ take 4 (SHA256 (SHA256 ([0] ++ RIPEMD160 (SHA256 (public_key key))))).
Proof.
  set (h160 := RIPEMD160 (SHA256 (public_key key))).
  set (checksum := SHA256 (SHA256 ([0] ++ h160))).
  assert (length h160 = 20%nat) as Hh by apply RIPEMD160_length.
  assert (length (take 4 checksum) = 4%nat) as Hc
    by (unfold checksum; rewrite length_take, SHA256_length; done).
  assert (copy_to h160 (<[0%nat:=0x00]> (replicate 25 0)) 1
          = [0] ++ h160 ++ replicate 4 0) as E1.
  { apply (copy_to_middle h160 [0] (replicate 20 0) (replicate 4 0)).
    by rewrite length_replicate. }
  assert (length ([0] ++ h160) = 21%nat) as Hpre
    by (rewrite length_app, Hh; done).
  assert (take 21 ([0] ++ h160 ++ replicate 4 0) = [0] ++ h160) as E2.
  { rewrite app_assoc, <- Hpre. apply take_app_length. }
  pose proof (copy_to_middle (take 4 checksum) ([0] ++ h160)
                (replicate 4 0) []
                ltac:(by rewrite Hc, length_replicate)) as E3.
  rewrite Hpre, !app_nil_r, <- !app_assoc in E3.
  unfold get_address, hash160, sha256. fold h160.
  rewrite E1, E2. exact E3.
Qed.

(** A byte string that can be an address: 25 bytes, version 0, and the
    checksum of the first 21 bytes at the end. *)
Definition well_formed_address (a : list Z) : Prop :=
  length a = 25%nat /\ a !! 0%nat = Some 0 /\
  drop 21 a = take 4 (SHA256 (SHA256 (take 21 a))).

Lemma get_address_well_formed (key : HDKey) :
  well_formed_address (get_address key).
Proof.
  rewrite get_address_bytes.
  set (h160 := RIPEMD160 (SHA256 (public_key key))).
  assert (length h160 = 20%nat) as Hh by apply RIPEMD160_length.
  assert (length ([0] ++ h160) = 21%nat) as Hpre
    by (rewrite length_app, Hh; done).
  split; [|split; [done|]].
  - rewrite !length_app, Hh, length_take, SHA256_length. done.
  - rewrite app_assoc, <- Hpre, drop_app_length, take_app_length. done.
Qed.

Lemma address_of_cases (master : HDKey) (c : candidate) :
  match address_of master c with
  | Ok a => well_formed_address a
  | Throw e => e = InvalidChildKey
  end.
Proof.
  unfold address_of.
  destruct (derive_path master (derivation c)) as [key|e] eqn:H.
  - rewrite result_bind_Ok. apply get_address_well_formed.
  - by apply derive_path_throw in H.
Qed.

(** What a result of the linear search says about the candidates. *)
Lemma search_cases (mnemonic : string) (master : HDKey) (target : list Z)
    (cs : list candidate) : forall log r,
  search mnemonic master target cs = (log, r) ->
  let differs c := exists a, address_of master c = Ok a /\ a <> target in
  match r with
  | Ok (Some b) =>
      b = true /\
      exists pos c,
        cs !! pos = Some c /\ address_of master c = Ok target /\
        log = (Examined <$> take (S pos) cs) ++ report mnemonic c /\
        Forall differs (take pos cs)
  | Ok None => log = Examined <$> cs /\ Forall differs cs
  | Throw e =>
      exists pos c,
        cs !! pos = Some c /\ address_of master c = Throw e /\
        log = Examined <$> take pos cs /\
        Forall differs (take pos cs)
  end.
Proof.
  induction cs as [|c cs IH]; intros log r H differs.
  - injection H as <- <-. done.
  - cbn [search] in H. destruct (address_of master c) as [a|e] eqn:Ea.
    + case_bool_decide as Hm.
      * injection H as <- <-. subst a. split; [done|].
        exists 0%nat, c. done.
      * destruct (search mnemonic master target cs) as [log' r'].
        injection H as <- <-. specialize (IH log' r' eq_refl).
        assert (differs c) as Hc by (by exists a).
        destruct r' as [[b|]|e].
        -- destruct IH as (-> & pos & c' & Hl & Ha & -> & Hall).
           split; [done|]. exists (S pos), c'.
           split; [done|]. split; [done|]. split; [done|].
           by constructor.
        -- destruct IH as [-> Hall]. split; [done | by constructor].
        -- destruct IH as (pos & c' & Hl & Ha & -> & Hall).
           exists (S pos), c'. split; [done|]. split; [done|].
           split; [done | by constructor].
    + injection H as <- <-. exists 0%nat, c. done.
Qed.

End MoreKeyFacts.

(** ** Outcomes of the search and of the program *)

Lemma examined_Examined (cs : list candidate) (rest : list event) :
  examined ((Examined <$> cs) ++ rest) = cs ++ examined rest.
Proof. induction cs as [|c cs IH]; [done|]. simpl. by rewrite <- IH. Qed.

Lemma examined_report (mnemonic : string) (c : candidate) :
  examined (report mnemonic c) = [].
Proof.
  unfold report, examined. generalize ([Str mnemonic] ++
    (cand_path c ≫= (fun p => [Str "/"; Num p])) ++
    match cand_account c with Some a => [Str "/"; Num a] | None => [] end ++
    [Str "/"; Num (cand_change c); Str "/"; Num (cand_index c); Endl]).
  intros l. induction l as [|t l IH]; [done|]. exact IH.
Qed.

Lemma decode_base58_throw (input : string) (e : exn) :
  decode_base58 input = Throw e ->
  e = InvalidBase58Character \/ e = InvalidLength.
Proof.
  rewrite decode_base58_formula.
  destruct (dec_digits [] (list_ascii_of_string input)) as [bn|e'] eqn:Ed.
  - rewrite result_bind_Ok. cbv zeta. case_bool_decide; [done|].
    intros [= <-]. by right.
  - intros [= <-]. left. by apply dec_digits_throw in Ed as [-> _].
Qed.

Section MoreSearchFacts.

Context {digests : Digests} {secp : Secp256k1}.

Lemma from_seed_throw (seed : list Z) (e : exn) :
  from_seed seed = Throw e -> e = InvalidMasterKey.
Proof.
  intros H. pose proof (from_seed_cases seed) as Hc. cbv zeta in Hc.
  destruct (secp256k1_ec_seckey_verify _).
  - destruct Hc as (pubkey & _ & Heq). congruence.
  - congruence.
Qed.

Lemma check_seed_phrase_true_inv (mnemonic : string) (target : list Z)
    (log : list event) :
  check_seed_phrase mnemonic target = (log, Ok true) ->
  exists master pos c,
    from_seed (seed_from_phrase mnemonic) = Ok master /\
    candidates !! pos = Some c /\
    address_of master c = Ok target /\
    log = SeedDerived :: (Examined <$> take (S pos) candidates)
            ++ report mnemonic c /\
    Forall (fun c' => exists a, address_of master c' = Ok a /\ a <> target)
           (take pos candidates).
Proof.
  rewrite check_seed_phrase_refines.
  destruct (from_seed (seed_from_phrase mnemonic)) as [master|e]; [|done].
  pose proof (search_cases mnemonic master target candidates) as H.
  destruct (search mnemonic master target candidates) as [log' r].
  specialize (H log' r eq_refl). cbv zeta in H.
  intros [= <- Hr]. destruct r as [[b|]|e]; [|done|done].
  destruct H as (_ & pos & c & Hl & Ha & -> & Hall).
  by exists master, pos, c.
Qed.

(** X14. A search that returns [true] is right: the master node exists,
    the candidate it reports has the target as its address, every
    candidate before it was derived and has another address, and the
    candidates compared are those up to the reported one. *)
Theorem check_seed_phrase_found (mnemonic : string) (target : list Z)
    (log : list event) :
  check_seed_phrase mnemonic target = (log, Ok true) ->
  exists master pos c,
    from_seed (seed_from_phrase mnemonic) = Ok master /\
    candidates !! pos = Some c /\
    address_of master c = Ok target /\
    log = SeedDerived :: (Examined <$> take (S pos) candidates)
            ++ report mnemonic c /\
    examined log = take (S pos) candidates /\
    Forall (fun c' => exists a, address_of master c' = Ok a /\ a <> target)
           (take pos candidates).
Proof.
  intros H. apply check_seed_phrase_true_inv in H
    as (master & pos & c & Hm & Hl & Ha & -> & Hall).
  exists master, pos, c. repeat (split; [done|]). split; [|done].
  change (examined (SeedDerived :: ?l)) with (examined l).
  by rewrite examined_Examined, examined_report, app_nil_r.
Qed.

(** X15. A search that returns [false] has derived and compared all
    2440 candidates, none has the target as its address, and nothing was
    printed. *)
Theorem check_seed_phrase_not_found (mnemonic : string) (target : list Z)
    (log : list event) :
  check_seed_phrase mnemonic target = (log, Ok false) ->
  exists master,
    from_seed (seed_from_phrase mnemonic) = Ok master /\
    log = SeedDerived :: (Examined <$> candidates) /\
    examined log = candidates /\ length (examined log) = 2440%nat /\
    Forall (fun c => exists a, address_of master c = Ok a /\ a <> target)
           candidates.
Proof.
  rewrite check_seed_phrase_refines.
  destruct (from_seed (seed_from_phrase mnemonic)) as [master|e]; [|done].
  pose proof (search_cases mnemonic master target candidates) as H.
  destruct (search mnemonic master target candidates) as [log' r].
  specialize (H log' r eq_refl). cbv zeta in H.
  intros [= <- Hr]. destruct r as [[b|]|e]; [| |done].
  - destruct H as [-> _]. done.
  - destruct H as [-> Hall]. exists master. split; [done|]. split; [done|].
    assert (examined (SeedDerived :: (Examined <$> candidates)) = candidates)
      as ->.
    { change (examined (SeedDerived :: ?l)) with (examined l).
      rewrite <- (app_nil_r (Examined <$> candidates)), examined_Examined.
      by rewrite app_nil_r. }
    done.
Qed.

Lemma check_seed_phrase_throw_kind (mnemonic : string) (target : list Z)
    (log : list event) (e : exn) :
  check_seed_phrase mnemonic target = (log, Throw e) ->
  e = InvalidMasterKey \/ e = InvalidChildKey.
Proof.
  rewrite check_seed_phrase_refines.
  destruct (from_seed (seed_from_phrase mnemonic)) as [master|e'] eqn:Hm.
  - pose proof (search_cases mnemonic master target candidates) as H.
    destruct (search mnemonic master target candidates) as [log' r].
    specialize (H log' r eq_refl). cbv zeta in H.
    intros [= <- Hr]. destruct r as [[b|]|e'']; [done|done|].
    injection Hr as ->. right. destruct H as (pos & c & _ & Ha & _).
    pose proof (address_of_cases master c) as Hc. by rewrite Ha in Hc.
  - intros [= <- <-]. left. by eapply from_seed_throw.
Qed.

(** X16. A search that throws does so with [InvalidMasterKey] before
    any candidate is compared, or with [InvalidChildKey] at the first
    candidate that cannot be derived, all candidates before it having
    been compared without a match; nothing was printed. *)
Theorem check_seed_phrase_throws (mnemonic : string) (target : list Z)
    (log : list event) (e : exn) :
  check_seed_phrase mnemonic target = (log, Throw e) ->
  (e = InvalidMasterKey /\ log = [SeedDerived] /\
   from_seed (seed_from_phrase mnemonic) = Throw e) \/
  (e = InvalidChildKey /\
   exists master pos c,
     from_seed (seed_from_phrase mnemonic) = Ok master /\
     candidates !! pos = Some c /\
     address_of master c = Throw e /\
     log = SeedDerived :: (Examined <$> take pos candidates) /\
     Forall (fun c' => exists a, address_of master c' = Ok a /\ a <> target)
            (take pos candidates)).
Proof.
  rewrite check_seed_phrase_refines.
  destruct (from_seed (seed_from_phrase mnemonic)) as [master|e'] eqn:Hm.
  - pose proof (search_cases mnemonic master target candidates) as H.
    destruct (search mnemonic master target candidates) as [log' r].
    specialize (H log' r eq_refl). cbv zeta in H.
    intros [= <- Hr]. destruct r as [[b|]|e'']; [done|done|].
    injection Hr as ->. right.
    destruct H as (pos & c & Hl & Ha & -> & Hall).
    pose proof (address_of_cases master c) as Hc. rewrite Ha in Hc.
    split; [done|]. by exists master, pos, c.
  - intros [= <- <-]. left. split; [by eapply from_seed_throw | done].
Qed.

(** X17. A target that is not 25 bytes long, does not start with the
    version byte 0 or does not end with the checksum of its first 21
    bytes is never found. *)
Theorem check_seed_phrase_malformed (mnemonic : string) (target : list Z) :
  ~ well_formed_address target ->
  snd (check_seed_phrase mnemonic target) <> Ok true.
Proof.
  intros Hbad Hr.
  destruct (check_seed_phrase mnemonic target) as [log r] eqn:Hc.
  simpl in Hr. subst r.
  apply check_seed_phrase_true_inv in Hc as (master & pos & c & _ & _ & Ha & _).
  pose proof (address_of_cases master c) as Hw. by rewrite Ha in Hw.
Qed.

(** X18. Exit status 0 is only returned when the context was created,
    the target string decodes, and a candidate whose address is the
    decoded target was found and printed last. *)
Theorem run_exit_zero (ctx_created : bool) (mnemonic target : string)
    (log : list event) :
  run ctx_created mnemonic target = (log, Exit 0) ->
  ctx_created = true /\
  exists target_bytes master c,
    decode_base58 target = Ok target_bytes /\
    from_seed (seed_from_phrase mnemonic) = Ok master /\
    c ∈ candidates /\
    address_of master c = Ok target_bytes /\
    report mnemonic c `suffix_of` log.
Proof.
  unfold run. destruct ctx_created; simpl; [|done].
  destruct (decode_base58 target) as [target_bytes|e]; [|done].
  case_bool_decide; [|done].
  destruct (check_seed_phrase mnemonic target_bytes) as [log' [fnd|e]] eqn:Hc;
    [|done].
  destruct fnd; [|done]. intros [= <-]. split; [done|].
  apply check_seed_phrase_true_inv in Hc
    as (master & pos & c & Hm & Hl & Ha & -> & _).
  exists target_bytes, master, c. repeat (split; [done|]).
  split; [by eapply list_elem_of_lookup_2|]. split; [done|].
  exists (SeedDerived :: (Examined <$> take (S pos) candidates)). done.
Qed.

(** X19. The process returns 0 or 1, or is aborted by one of five
    causes: the two decode errors, the version assertion, an invalid
    master key or an invalid child key. The other [runtime_error] and the
    other assertion of the program cannot reach [main]. *)
Theorem run_outcome (ctx_created : bool) (mnemonic target : string) :
  match snd (run ctx_created mnemonic target) with
  | Exit code => code = 0 \/ code = 1
  | Aborted e =>
      ctx_created = true /\
      (e = InvalidBase58Character \/ e = InvalidLength \/
       e = assertion "target_bytes[0] == 0" \/
       e = InvalidMasterKey \/ e = InvalidChildKey)
  end.
Proof.
  unfold run. destruct ctx_created; simpl; [|by right].
  destruct (decode_base58 target) as [target_bytes|e] eqn:Hd.
  - case_bool_decide; [|simpl; by auto 10].
    destruct (check_seed_phrase mnemonic target_bytes) as [log' [fnd|e]] eqn:Hc.
    + simpl. destruct fnd; auto.
    + simpl. split; [done|].
      apply check_seed_phrase_throw_kind in Hc as [->| ->]; auto 10.
  - simpl. split; [done|]. apply decode_base58_throw in Hd as [->| ->]; auto.
Qed.

(** X20. The program as compiled: its target literal decodes and passes
    the version assertion, so [main] returns 1 without a context, and
    otherwise returns what the search says or is aborted by a key
    derivation. *)
Theorem main_outcome :
  main false =
    ([Cerr (Str "Failed to create secp256k1 context"); Cerr Endl], Exit 1) /\
  main true =
    (let '(log, r) := check_seed_phrase mnemonic_literal wanted_address in
     (log, match r with
           | Ok fnd => Exit (if fnd then 0 else 1)
           | Throw e => Aborted e
           end)) /\
  forall ctx_created,
    match snd (main ctx_created) with
    | Exit code => code = 0 \/ code = 1
    | Aborted e => e = InvalidMasterKey \/ e = InvalidChildKey
    end.
Proof.
  assert (main true =
    (let '(log, r) := check_seed_phrase mnemonic_literal wanted_address in
     (log, match r with
           | Ok fnd => Exit (if fnd then 0 else 1)
           | Throw e => Aborted e
           end))) as Hrun.
  { unfold main, run. simpl negb. cbv iota.
    rewrite decode_target_literal. rewrite bool_decide_eq_true_2 by done.
    by destruct (check_seed_phrase mnemonic_literal wanted_address)
      as [log [fnd|e]]. }
  split; [done|]. split; [exact Hrun|]. intros [|]; [|by right].
  rewrite Hrun.
  destruct (check_seed_phrase mnemonic_literal wanted_address)
    as [log [fnd|e]] eqn:Hc; simpl.
  - destruct fnd; auto.
  - apply check_seed_phrase_throw_kind in Hc as [->| ->]; auto.
Qed.

End MoreSearchFacts.

(** *** Sample inputs for the further properties *)

(** A stand-in for HMAC-SHA512 that gives the scalar 1 for the master node
    and a left half above the curve order everywhere else, so that the
    first child derivation fails. *)
Definition stubborn_digests : Digests := {|
  HMAC_SHA512 := fun key data =>
    if bool_decide (key = bytes_of_string "Bitcoin seed")
    then replicate 31 0 ++ [1] ++ replicate 32 0
    else replicate 64 255;
  SHA256 := fun _ => replicate 32 0;
  RIPEMD160 := fun _ => replicate 20 0;
  PKCS5_PBKDF2_HMAC_SHA512 := fun _ _ _ keylen => replicate keylen 0;
  HMAC_SHA512_length := fun key data =>
    match bool_decide (key = bytes_of_string "Bitcoin seed") as b
      return length (if b then replicate 31 0 ++ [1] ++ replicate 32 0
                     else replicate 64 255) = 64%nat
    with true => eq_refl | false => eq_refl end;
  SHA256_length := fun _ => eq_refl;
  RIPEMD160_length := fun _ => eq_refl;
|}.

Lemma decode_encode_any_witness :
  decode_base58 (encode_base58 [0; 1; 2]) = Throw InvalidLength.
Proof.
  apply (decode_encode_any [0; 1; 2]).
  apply (bool_decide_unpack _). vm_compute. exact I.
Defined.

Lemma decode_base58_short_witness :
  decode_base58 "1Lme4nrYHRChHwrpVHJTajEX" = Throw InvalidBase58Character \/
  decode_base58 "1Lme4nrYHRChHwrpVHJTajEX" = Throw InvalidLength.
Proof. apply decode_base58_short. vm_compute. lia. Defined.

Lemma encode_base58_inj_witness : [0; 7] = [0; 7].
Proof.
  apply encode_base58_inj;
    [apply (bool_decide_unpack _); vm_compute; exact I
    |apply (bool_decide_unpack _); vm_compute; exact I
    |reflexivity].
Defined.

Lemma encode_base58_digits_witness :
  exists ds,
    list_ascii_of_string (encode_base58 [0; 1; 0]) = char_at BASE58_CHARS <$> ds /\
    digits_in 58 ds /\
    horner 58 0 ds = be_val [0; 1; 0] /\
    Forall (fun c => c ∈ list_ascii_of_string BASE58_CHARS)
           (list_ascii_of_string (encode_base58 [0; 1; 0])).
Proof.
  apply (encode_base58_digits [0; 1; 0]).
  apply (bool_decide_unpack _). vm_compute. exact I.
Defined.

Lemma encode_base58_onto_witness :
  exists B, is_bytes B /\
    encode_base58 B = string_of_list_ascii (char_at BASE58_CHARS <$> [0; 4; 57]) /\
    be_val B = horner 58 0 [0; 4; 57] /\ count_zeros B = count_zeros [0; 4; 57].
Proof.
  apply (encode_base58_onto [0; 4; 57]).
  apply (bool_decide_unpack _). vm_compute. exact I.
Defined.

Lemma encode_base58_length_witness :
  (length wanted_address <= String.length (encode_base58 wanted_address)
   <= length wanted_address * 138 / 100 + 1)%nat.
Proof.
  apply (encode_base58_length wanted_address).
  apply (bool_decide_unpack _). vm_compute. exact I.
Defined.

Lemma check_seed_phrase_found_witness :
  exists master pos c,
    from_seed (seed_from_phrase "abc") = Ok master /\
    candidates !! pos = Some c /\
    address_of master c = Ok abc_target /\
    (SeedDerived :: (Examined <$> take 3 candidates) ++ report "abc" abc_third)
      = SeedDerived :: (Examined <$> take (S pos) candidates)
          ++ report "abc" c /\
    examined (SeedDerived :: (Examined <$> take 3 candidates)
                ++ report "abc" abc_third) = take (S pos) candidates /\
    Forall (fun c' => exists a, address_of master c' = Ok a /\ a <> abc_target)
           (take pos candidates).
Proof.
  apply (check_seed_phrase_found "abc" abc_target). vm_compute. reflexivity.
Defined.

Lemma check_seed_phrase_not_found_witness :
  exists master,
    from_seed (seed_from_phrase mnemonic_literal) = Ok master /\
    SeedDerived :: (Examined <$> candidates)
      = SeedDerived :: (Examined <$> candidates) /\
    examined (SeedDerived :: (Examined <$> candidates)) = candidates /\
    length (examined (SeedDerived :: (Examined <$> candidates))) = 2440%nat /\
    Forall (fun c => exists a, address_of master c = Ok a /\ a <> wanted_address)
           candidates.
Proof.
  apply (check_seed_phrase_not_found mnemonic_literal wanted_address).
  vm_compute. reflexivity.
Defined.

Lemma check_seed_phrase_throws_witness :
  @check_seed_phrase stubborn_digests toy_secp "abc" [] =
    ([SeedDerived], Throw InvalidChildKey) /\
  ((InvalidChildKey = InvalidMasterKey /\ [SeedDerived] = [SeedDerived] /\
    @from_seed stubborn_digests toy_secp
      (@seed_from_phrase stubborn_digests "abc") = Throw InvalidChildKey) \/
   (InvalidChildKey = InvalidChildKey /\
    exists master pos c,
      @from_seed stubborn_digests toy_secp
        (@seed_from_phrase stubborn_digests "abc") = Ok master /\
      candidates !! pos = Some c /\
      @address_of stubborn_digests toy_secp master c = Throw InvalidChildKey /\
      [SeedDerived] = SeedDerived :: (Examined <$> take pos candidates) /\
      Forall (fun c' => exists a,
                @address_of stubborn_digests toy_secp master c' = Ok a /\ a <> [])
             (take pos candidates))).
Proof.
  assert (@check_seed_phrase stubborn_digests toy_secp "abc" [] =
            ([SeedDerived], Throw InvalidChildKey)) as H
    by (vm_compute; reflexivity).
  split; [exact H|].
  exact (@check_seed_phrase_throws stubborn_digests toy_secp "abc" [] _ _ H).
Defined.

Lemma check_seed_phrase_malformed_witness :
  snd (check_seed_phrase "abc" [0; 1; 2]) <> Ok true.
Proof.
  apply check_seed_phrase_malformed. intros [Hlen _]. discriminate Hlen.
Defined.

Lemma run_exit_zero_witness :
  true = true /\
  exists target_bytes master c,
    decode_base58 "1EFWQARzi9mQEMLkUjRgz2thuhxEaEjuuh" = Ok target_bytes /\
    from_seed (seed_from_phrase "abc") = Ok master /\
    c ∈ candidates /\
    address_of master c = Ok target_bytes /\
    report "abc" c `suffix_of`
      (SeedDerived :: (Examined <$> take 3 candidates) ++ report "abc" abc_third).
Proof.
  apply (run_exit_zero true "abc" "1EFWQARzi9mQEMLkUjRgz2thuhxEaEjuuh").
  vm_compute. reflexivity.
Defined.
